(** * Beehive: the in-memory transactional state, the bee and the hive

    A shallow embedding of [bh/inmem.go], of the bee ([localBee],
    [BeeColony]) and of [hive.ReplyTo], with the properties the design
    document states about them.

    Conventions of the embedding.
    - A Go [error] result is an [option error]; [None] is [nil].
    - A Go map is a [gmap].  A [for ... range m] loop visits every entry of
      [m] once, in an order the language leaves open: the functions that
      contain such a loop take the order as an argument, and the theorems
      quantify over every order that is a permutation of the entries
      ([range_order]).
    - A send on a channel appends to the list of values sent on it. *)

From stdpp Require Import gmap strings list fin_maps.

(** [errors.New] and [fmt.Errorf]: an error carries its text. *)
Inductive error :=
  | errors_New (msg : string)
  | fmt_Errorf (format : string).   (* the text of the arguments is left out *)

(** How a call ends: it returns, or it panics (a failed type assertion),
    or it never returns (a send on a nil channel).  [Panics] holds the
    state the call had reached. *)
Inductive outcome (St A : Type) :=
  | Returns (a : A)
  | Panics (st : St) (what : string)
  | BlocksForever (st : St).
Arguments Returns {St A} a.
Arguments Panics {St A} st what.
Arguments BlocksForever {St A} st.

#[global] Instance outcome_bind {St} : MBind (outcome St) := λ A B f m,
  match m with
  | Returns a => f a
  | Panics st what => Panics st what
  | BlocksForever st => BlocksForever st
  end.

(** Lines of the error log ([glog.Errorf]); the verbose [glog.V(2)] lines
    are left out. *)
Inductive log_line := glog_Errorf (format : string).

Section range.
Context `{Countable Kt} {A : Type}.

(** The orders in which [range] may visit the entries of a map. *)
Definition range_order (m : gmap Kt A) (order : list (Kt * A)) : Prop :=
  order ≡ₚ map_to_list m.

End range.

Module bh.

(** ** Data *)

Definition DictName := string.
Definition Key := string.

(** Modelled from the spec: [Value] is declared elsewhere in the package;
    §3 makes it a byte sequence, and [inMemStagedDict.Get] returns [nil]
    for it, so it has a nil value. *)
Inductive Value := nilValue | bytes (b : string).

(** Modelled from the spec: [StateOpType] and [StateOp] are declared
    elsewhere in the package.  §3 gives an operation as
    {Put|Del, DictName, Key, Value}; the field names are the ones
    [inMemStagedDict.Put] fills in. *)
Inductive StateOpType := Put | Del.

Record StateOp := { T : StateOpType; D : DictName; K : Key; V : Value }.

#[global] Instance Value_eq_dec : EqDecision Value.
Proof. solve_decision. Defined.
#[global] Instance StateOpType_eq_dec : EqDecision StateOpType.
Proof. solve_decision. Defined.
#[global] Instance StateOp_eq_dec : EqDecision StateOp.
Proof. solve_decision. Defined.

(** [inMemDict]: the field [DictName] is [dictName] here, for the type has
    that name. *)
Record inMemDict := { dictName : DictName; Dict : gmap Key Value }.

(** A [*inMemStagedDict] is an address in the store of staged dicts
    ([heap] below): the transaction's stage and the caller of [Dict] hold
    the same object.

    The field [dict *inMemDict] is kept as the name under which the state
    holds that object: [inMemoryTx.Dict] sets it to [state.inMemDict(n)],
    which is [state.Dicts[n]], and nothing in [inmem.go] rebinds or
    removes an entry of [Dicts]. *)
Definition ptr := nat.

Record inMemStagedDict := { dict : DictName; ops : gmap Key StateOp }.

(** [inMemoryTx]: the back pointer [state] is the state that holds the
    transaction, and is left implicit. *)
Record inMemoryTx := { stage : gmap DictName ptr }.

Record inMemoryState := {
  Name : string;
  Dicts : gmap DictName inMemDict;
  tx : option inMemoryTx;
  heap : list inMemStagedDict
}.

(** What [Dict(name)] returns: the interface [Dict] holds either a
    [*inMemDict] or a [*inMemStagedDict]. *)
Inductive DictRef := DirectRef (n : DictName) | StagedRef (p : ptr).

(** ** [inMemDict] *)

Definition inMemDict_Name (d : inMemDict) : DictName := dictName d.

Definition inMemDict_Get (d : inMemDict) (k : Key) : Value * option error :=
  match Dict d !! k with
  | None => (nilValue, Some (errors_New "Key does not exist."))
  | Some v => (v, None)
  end.

Definition inMemDict_Put (d : inMemDict) (k : Key) (v : Value)
  : inMemDict * option error :=
  ({| dictName := dictName d; Dict := <[k := v]> (Dict d) |}, None).

Definition inMemDict_Del (d : inMemDict) (k : Key) : inMemDict * option error :=
  ({| dictName := dictName d; Dict := delete k (Dict d) |}, None).

(** [ForEach] calls [f] on the entries of [d.Dict]; [order] is the order
    in which [range d.Dict] yields them, and [f] acts on the state [St] of
    the caller. *)
Definition inMemDict_ForEach {St : Type} (order : list (Key * Value))
    (f : Key → Value → St → St) (st : St) : St :=
  foldl (λ st kv, f kv.1 kv.2 st) st order.

(** ** [inMemoryState] and [inMemoryTx] *)

Definition inMemoryState_newTransaction : inMemoryTx := {| stage := ∅ |}.

Definition inMemoryState_BeginTx (s : inMemoryState) : inMemoryState * option error :=
  match tx s with
  | Some _ => (s, Some (errors_New "Transaction is already started"))
  | None =>
      ({| Name := Name s; Dicts := Dicts s; tx := Some inMemoryState_newTransaction;
          heap := heap s |}, None)
  end.

(** [s.inMemDict(name)] creates the dict when the state has none of that
    name; the pointer it returns is the entry of [Dicts] at [name]. *)
Definition inMemoryState_inMemDict (s : inMemoryState) (name : DictName) : inMemoryState :=
  match Dicts s !! name with
  | Some _ => s
  | None =>
      {| Name := Name s;
         Dicts := <[name := {| dictName := name; Dict := ∅ |}]> (Dicts s);
         tx := tx s; heap := heap s |}
  end.

(** [t.Dict(n)]: a new staged dict with no operation, which replaces the
    one the stage had for [n]. *)
Definition inMemoryTx_Dict (s : inMemoryState) (t : inMemoryTx) (n : DictName)
  : inMemoryState * ptr :=
  let s1 := inMemoryState_inMemDict s n in
  let p := length (heap s1) in
  ({| Name := Name s1; Dicts := Dicts s1;
      tx := Some {| stage := <[n := p]> (stage t) |};
      heap := heap s1 ++ [{| dict := n; ops := ∅ |}] |}, p).

Definition inMemoryState_Dict (s : inMemoryState) (name : DictName)
  : inMemoryState * DictRef :=
  match tx s with
  | Some t => let '(s', p) := inMemoryTx_Dict s t name in (s', StagedRef p)
  | None => (inMemoryState_inMemDict s name, DirectRef name)
  end.

(** Writing the object a [*inMemDict] points to. *)
Definition store_dict (n : DictName) (d : inMemDict) (s : inMemoryState)
  : inMemoryState :=
  {| Name := Name s; Dicts := <[n := d]> (Dicts s); tx := tx s; heap := heap s |}.

(** Writing the object a [*inMemStagedDict] points to. *)
Definition store_staged (p : ptr) (d : inMemStagedDict) (s : inMemoryState)
  : inMemoryState :=
  {| Name := Name s; Dicts := Dicts s; tx := tx s; heap := <[p := d]> (heap s) |}.

(** The body of the inner loop of [Commit], on the dict [n] points to. *)
Definition commit_op (n : DictName) (s : inMemoryState) (o : StateOp)
  : inMemoryState :=
  match Dicts s !! n with
  | Some u =>
      match T o with
      | Put => store_dict n (inMemDict_Put u (K o) (V o)).1 s
      | Del => store_dict n (inMemDict_Del u (K o)).1 s
      end
  | None => s
  end.

(** [t.Commit()].  [stage_order] is the order of [range t.stage] and
    [ops_order p] the order of [range d.ops] for the staged dict at [p]. *)
Definition inMemoryTx_Commit (stage_order : list (DictName * ptr))
    (ops_order : ptr → list (Key * StateOp)) (s : inMemoryState)
  : inMemoryState :=
  foldl (λ s np,
           match heap s !! np.2 with
           | Some d => foldl (λ s ko, commit_op (dict d) s ko.2) s (ops_order np.2)
           | None => s
           end) s stage_order.

Definition inMemoryTx_Abort (s : inMemoryState) : inMemoryState := s.

Definition inMemoryState_CommitTx (stage_order : list (DictName * ptr))
    (ops_order : ptr → list (Key * StateOp)) (s : inMemoryState)
  : inMemoryState * option error :=
  match tx s with
  | None => (s, Some (errors_New "No active transaction"))
  | Some _ => (inMemoryTx_Commit stage_order ops_order s, None)
  end.

Definition inMemoryState_AbortTx (s : inMemoryState) : inMemoryState * option error :=
  match tx s with
  | None => (s, Some (errors_New "No active transaction"))
  | Some _ => (inMemoryTx_Abort s, None)
  end.

(** ** [inMemStagedDict]

    The methods are given on the object, next to the object [u] its field
    [dict] points to; [Dict_Get] and the like below follow the pointers. *)

Definition inMemStagedDict_Name (u : inMemDict) (d : inMemStagedDict) : DictName :=
  inMemDict_Name u.

Definition inMemStagedDict_Put (u : inMemDict) (d : inMemStagedDict)
    (k : Key) (v : Value) : inMemStagedDict * option error :=
  ({| dict := dict d;
      ops := <[k := {| T := Put; D := inMemDict_Name u; K := k; V := v |}]> (ops d) |},
   None).

Definition inMemStagedDict_Get (u : inMemDict) (d : inMemStagedDict) (k : Key)
  : Value * option error :=
  match ops d !! k with
  | Some op =>
      match T op with
      | Put => (V op, None)
      | Del => (nilValue, Some (errors_New "No such key"))
      end
  | None => inMemDict_Get u k
  end.

(** The zero value of [StateOp]; [zeroT] is the zero value of its field [T],
    which is declared elsewhere in the package. *)
Definition zero_StateOp (zeroT : StateOpType) : StateOp :=
  {| T := zeroT; D := ""; K := ""; V := nilValue |}.

(** [Del] leaves the field [V] out of the literal, so it has its zero
    value. *)
Definition inMemStagedDict_Del (u : inMemDict) (d : inMemStagedDict) (k : Key)
  : inMemStagedDict * option error :=
  ({| dict := dict d;
      ops := <[k := {| T := Del; D := inMemDict_Name u; K := k; V := nilValue |}]> (ops d) |},
   None).

(** [order] is the order in which [range d.dict.Dict] yields the entries of
    the underlying dict. *)
Definition inMemStagedDict_ForEach {St : Type} (order : list (Key * Value))
    (d : inMemStagedDict) (f : Key → Value → St → St) (st : St) : St :=
  inMemDict_ForEach order
    (λ k v st,
       match ops d !! k with
       | Some op =>
           match T op with
           | Put => f (K op) (V op) st
           | Del => st
           end
       | None => f k v st
       end) st.

(** ** The interface [Dict]

    A method call on a [Dict] value runs the method of the object the
    value points to.  A pointer that [Dict(name)] handed out always points
    to an object; the branches for a pointer without one are there to make
    the functions total, and leave the state as it is. *)

Definition Dict_Get (s : inMemoryState) (r : DictRef) (k : Key)
  : Value * option error :=
  match r with
  | DirectRef n =>
      match Dicts s !! n with
      | Some u => inMemDict_Get u k
      | None => (nilValue, None)
      end
  | StagedRef p =>
      match heap s !! p with
      | Some d =>
          match Dicts s !! dict d with
          | Some u => inMemStagedDict_Get u d k
          | None => (nilValue, None)
          end
      | None => (nilValue, None)
      end
  end.

Definition Dict_Put (s : inMemoryState) (r : DictRef) (k : Key) (v : Value)
  : inMemoryState * option error :=
  match r with
  | DirectRef n =>
      match Dicts s !! n with
      | Some u => (store_dict n (inMemDict_Put u k v).1 s, None)
      | None => (s, None)
      end
  | StagedRef p =>
      match heap s !! p with
      | Some d =>
          match Dicts s !! dict d with
          | Some u => (store_staged p (inMemStagedDict_Put u d k v).1 s, None)
          | None => (s, None)
          end
      | None => (s, None)
      end
  end.

Definition Dict_Del (s : inMemoryState) (r : DictRef) (k : Key)
  : inMemoryState * option error :=
  match r with
  | DirectRef n =>
      match Dicts s !! n with
      | Some u => (store_dict n (inMemDict_Del u k).1 s, None)
      | None => (s, None)
      end
  | StagedRef p =>
      match heap s !! p with
      | Some d =>
          match Dicts s !! dict d with
          | Some u => (store_staged p (inMemStagedDict_Del u d k).1 s, None)
          | None => (s, None)
          end
      | None => (s, None)
      end
  end.

Definition Dict_ForEach {St : Type} (s : inMemoryState) (r : DictRef)
    (order : list (Key * Value)) (f : Key → Value → St → St) (st : St) : St :=
  match r with
  | DirectRef n => inMemDict_ForEach order f st
  | StagedRef p =>
      match heap s !! p with
      | Some d => inMemStagedDict_ForEach order d f st
      | None => st
      end
  end.

(** [s.Dict(name).Get(k)] *)
Definition Get_through_Dict (s : inMemoryState) (name : DictName) (k : Key)
  : Value * option error :=
  let '(s', r) := inMemoryState_Dict s name in Dict_Get s' r k.

(** ** [inMemoryState.Tx]

    The result is [None] for the nil slice.  The stage is ranged over
    twice, in the orders [stage_order1] and [stage_order2]. *)
Definition inMemoryState_Tx (zeroT : StateOpType)
    (stage_order1 stage_order2 : list (DictName * ptr))
    (ops_order : ptr → list (Key * StateOp)) (s : inMemoryState)
  : option (list StateOp) :=
  match tx s with
  | None => None
  | Some _ =>
      let l := foldl (λ l np,
                        match heap s !! np.2 with
                        | Some d => l + size (ops d)
                        | None => l
                        end) 0 stage_order1 in
      let ops0 := replicate l (zero_StateOp zeroT) in
      Some (foldl (λ acc np,
                     match heap s !! np.2 with
                     | Some d => foldl (λ acc ko, acc ++ [ko.2]) acc (ops_order np.2)
                     | None => acc
                     end) ops0 stage_order2)
  end.

(** ** What a handler does with the state

    A handler that stages operations calls [Dict] on the state and [Put]
    and [Del] on the staged dicts it got. *)
Inductive call :=
  | call_Dict (n : DictName)
  | call_Put (p : ptr) (k : Key) (v : Value)
  | call_Del (p : ptr) (k : Key).

Definition run_call (s : inMemoryState) (c : call) : inMemoryState :=
  match c with
  | call_Dict n => (inMemoryState_Dict s n).1
  | call_Put p k v => (Dict_Put s (StagedRef p) k v).1
  | call_Del p k => (Dict_Del s (StagedRef p) k).1
  end.

Definition run_calls (cs : list call) (s : inMemoryState) : inMemoryState :=
  foldl run_call s cs.

(** ** Bees *)

Definition HiveID := string.
Definition AppName := string.

(** [ID] is a [uint64]. *)
Record BeeID := { HiveID_of : HiveID; AppName_of : AppName; ID : N; Detached : bool }.

#[global] Instance BeeID_eq_dec : EqDecision BeeID.
Proof. solve_decision. Defined.

Record BeeColony := { Master : BeeID; Slaves : list BeeID }.

(** The loop of [AddSlave]: is some slave equal to [id]? *)
Fixpoint AddSlave_loop (id : BeeID) (slaves : list BeeID) : bool :=
  match slaves with
  | [] => false
  | s :: rest => if decide (s = id) then true else AddSlave_loop id rest
  end.

Definition BeeColony_AddSlave (c : BeeColony) (id : BeeID) : BeeColony * bool :=
  if AddSlave_loop id (Slaves c) then (c, false)
  else ({| Master := Master c; Slaves := Slaves c ++ [id] |}, true).

(** The loop of [DelSlave] from index [i] on, [rest] being [c.Slaves[i:]];
    at the first slave equal to [id] it returns
    [append(c.Slaves[:i], c.Slaves[i+1:]...)]. *)
Fixpoint DelSlave_loop (all : list BeeID) (id : BeeID) (i : nat) (rest : list BeeID)
  : option (list BeeID) :=
  match rest with
  | [] => None
  | s :: rest' =>
      if decide (s = id) then Some (take i all ++ drop (S i) all)
      else DelSlave_loop all id (S i) rest'
  end.

Definition BeeColony_DelSlave (c : BeeColony) (id : BeeID) : BeeColony * bool :=
  match DelSlave_loop (Slaves c) id 0 (Slaves c) with
  | Some slaves => ({| Master := Master c; Slaves := slaves |}, true)
  | None => (c, false)
  end.

(** Modelled from the spec: [Tx], [TxSeq] and the transaction statuses are
    declared elsewhere in the package.  §3 gives a transaction a sequence
    number, its operations, its outgoing messages and a status among Open,
    Committed and Aborted; the bee reads [Seq] and writes [Status], and the
    outgoing messages are left out. *)
Inductive TxStatus := TxOpen | TxCommitted | TxAborted.

Definition TxSeq := N.

Record Tx := { Seq : TxSeq; Ops : list StateOp; Status : TxStatus }.

#[global] Instance TxStatus_eq_dec : EqDecision TxStatus.
Proof. solve_decision. Defined.
#[global] Instance Tx_eq_dec : EqDecision Tx.
Proof. solve_decision. Defined.

(** The command data types are declared elsewhere in the package;
    [handleCmd] reads the field [BeeID] of both. *)
Record addSlaveCmdData := { addSlaveCmdData_BeeID : BeeID }.
Record delSlaveCmdData := { delSlaveCmdData_BeeID : BeeID }.

(** A value of type [interface{}] with its dynamic type, for the types the
    bee's commands and results carry. *)
Inductive any :=
  | any_nil
  | any_BeeID (b : BeeID)
  | any_Slaves (l : list BeeID)
  | any_addSlaveCmdData (d : addSlaveCmdData)
  | any_delSlaveCmdData (d : delSlaveCmdData)
  | any_Tx (t : Tx)
  | any_TxSeq (q : TxSeq).

(** The command types are constants declared elsewhere in the package;
    [otherCmd] stands for those [handleCmd] has no case for. *)
Inductive CmdType :=
  | stopCmd | listSlavesCmd | addSlaveCmd | delSlaveCmd | bufferTxCmd
  | commitTxCmd | otherCmd (n : nat).

Record CmdResult := { Data : any; Err : option error }.

(** A channel of results is known by its address; [None] is the nil
    channel. *)
Definition chan := nat.

Record LocalCmd := { CmdType_of : CmdType; CmdData : any; ResCh : option chan }.

Record RemoteCmd := { RCmdType : CmdType; RCmdData : any; CmdTo : BeeID }.

Definition NewRemoteCmd (t : CmdType) (d : any) (to : BeeID) : RemoteCmd :=
  {| RCmdType := t; RCmdData := d; CmdTo := to |}.

(** [localBee], over the type [C] of its receive context; the channels it
    reads from and its queen are left out. *)
Record localBee (C : Type) := {
  ctx : C;
  beeColony : BeeColony;
  txBuf : list Tx
}.
Arguments ctx {C} _.
Arguments beeColony {C} _.
Arguments txBuf {C} _.

Definition localBee_id {C} (bee : localBee C) : BeeID := Master (beeColony bee).

Section handleCmd.
Context {C : Type}.

Definition sent := list (chan * CmdResult).

(** What [handleCmd] has done when it ends: the bee and the results sent
    so far. *)
Definition cmd_state : Type := localBee C * sent.

(** [ch <- r] *)
Definition send (st : cmd_state) (ch : option chan) (r : CmdResult)
  : outcome cmd_state cmd_state :=
  match ch with
  | Some c => Returns (st.1, st.2 ++ [(c, r)])
  | None => BlocksForever st
  end.

(** Type assertions [x.(T)] in their one-result form: they panic when
    the dynamic type of [x] is not [T]. *)
Definition assert_BeeID (st : cmd_state) (x : any) : outcome cmd_state BeeID :=
  match x with
  | any_BeeID b => Returns b
  | _ => Panics st "interface conversion: not bh.BeeID"
  end.

Definition assert_addSlaveCmdData (st : cmd_state) (x : any)
  : outcome cmd_state addSlaveCmdData :=
  match x with
  | any_addSlaveCmdData d => Returns d
  | _ => Panics st "interface conversion: not bh.addSlaveCmdData"
  end.

Definition assert_delSlaveCmdData (st : cmd_state) (x : any)
  : outcome cmd_state delSlaveCmdData :=
  match x with
  | any_delSlaveCmdData d => Returns d
  | _ => Panics st "interface conversion: not bh.delSlaveCmdData"
  end.

Definition assert_Tx (st : cmd_state) (x : any) : outcome cmd_state Tx :=
  match x with
  | any_Tx t => Returns t
  | _ => Panics st "interface conversion: not bh.Tx"
  end.

Definition assert_TxSeq (st : cmd_state) (x : any) : outcome cmd_state TxSeq :=
  match x with
  | any_TxSeq q => Returns q
  | _ => Panics st "interface conversion: not bh.TxSeq"
  end.

Definition set_beeColony (c : BeeColony) (bee : localBee C) : localBee C :=
  {| ctx := ctx bee; beeColony := c; txBuf := txBuf bee |}.

Definition set_txBuf (b : list Tx) (bee : localBee C) : localBee C :=
  {| ctx := ctx bee; beeColony := beeColony bee; txBuf := b |}.

(** The loop of the [commitTxCmd] case.  The loop variable [tx] is a
    copy of the element of [bee.txBuf]: the assignment to [tx.Status]
    writes the copy, which the loop returns here, and [bee.txBuf] is not
    written. *)
Fixpoint commitTx_loop (seq : TxSeq) (txs : list Tx) : option Tx :=
  match txs with
  | [] => None
  | tx :: rest =>
      if decide (seq = Seq tx)
      then Some {| Seq := Seq tx; Ops := Ops tx; Status := TxCommitted |}
      else commitTx_loop seq rest
  end.

(** [handleCmd] returns false if the bee should stop.  The lines it
    writes to the log are left out. *)
Definition handleCmd (bee : localBee C) (cmd : LocalCmd)
  : outcome cmd_state (cmd_state * bool) :=
  let st : cmd_state := (bee, []) in
  match CmdType_of cmd with
  | stopCmd =>
      st ← send st (ResCh cmd) {| Data := any_nil; Err := None |};
      Returns (st, false)
  | listSlavesCmd =>
      st ← send st (ResCh cmd)
             {| Data := any_Slaves (Slaves (beeColony bee)); Err := None |};
      Returns (st, true)
  | addSlaveCmd =>
      d ← assert_addSlaveCmdData st (CmdData cmd);
      let slaveID := addSlaveCmdData_BeeID d in
      let '(c, ok) := BeeColony_AddSlave (beeColony bee) slaveID in
      let st : cmd_state := (set_beeColony c bee, []) in
      err ← (if ok then Returns None
             else _ ← assert_BeeID st (CmdData cmd);
                  Returns (Some (fmt_Errorf "Slave %s already exists")));
      st ← send st (ResCh cmd) {| Data := any_nil; Err := err |};
      Returns (st, true)
  | delSlaveCmd =>
      d ← assert_delSlaveCmdData st (CmdData cmd);
      let slaveID := delSlaveCmdData_BeeID d in
      let '(c, ok) := BeeColony_DelSlave (beeColony bee) slaveID in
      let st : cmd_state := (set_beeColony c bee, []) in
      err ← (if ok then Returns None
             else _ ← assert_BeeID st (CmdData cmd);
                  Returns (Some (fmt_Errorf "Slave %s already exists")));
      st ← send st (ResCh cmd) {| Data := any_nil; Err := err |};
      Returns (st, true)
  | bufferTxCmd =>
      tx ← assert_Tx st (CmdData cmd);
      let st : cmd_state := (set_txBuf (txBuf bee ++ [tx]) bee, []) in
      st ← send st (ResCh cmd) {| Data := any_nil; Err := None |};
      Returns (st, true)
  | commitTxCmd =>
      seq ← assert_TxSeq st (CmdData cmd);
      match commitTx_loop seq (txBuf bee) with
      | Some _ =>
          st ← send st (ResCh cmd) {| Data := any_nil; Err := None |};
          Returns (st, true)
      | None =>
          st ← send st (ResCh cmd)
                 {| Data := any_nil;
                    Err := Some (fmt_Errorf "Transaction #%d not found.") |};
          Returns (st, true)
      end
  | otherCmd _ =>
      match ResCh cmd with
      | Some _ =>
          st ← send st (ResCh cmd)
                 {| Data := any_nil;
                    Err := Some (fmt_Errorf "Unknown bee command %v") |};
          Returns (st, true)
      | None => Returns (st, true)
      end
  end.
End handleCmd.

(** ** Replication to the slaves

    [NewProxy] and [SendCmd] are defined elsewhere in the package:
    [SendCmd] is a parameter, a function of the state [World] of the network, of the hive
    the proxy was made for and of the command, which gives the next state
    of the network and the error of the call. *)
Section replicateTx.
Context {C World : Type}.
Variable SendCmd : World → HiveID → RemoteCmd → World * option error.

(** [sends] keeps, for each call of [SendCmd] so far, the slave and the
    error. *)
Record repl_state := {
  world : World;
  sends : list (BeeID * option error);
  glog : list log_line
}.

Definition replicate_line : log_line :=
  glog_Errorf "Cannot replicate tx %+v on bee %+v".

(** The loop of [replicateTx] from index [i] on. *)
Fixpoint replicateTx_loop (tx : Tx) (i : nat) (slaves : list BeeID)
    (st : repl_state) : repl_state * option error :=
  match slaves with
  | [] => (st, None)
  | s :: rest =>
      let cmd := NewRemoteCmd bufferTxCmd (any_Tx tx) s in
      let '(w, err) := SendCmd (world st) (HiveID_of s) cmd in
      let st := {| world := w;
                   sends := sends st ++ [(s, err)];
                   glog := match err with
                           | Some _ => glog st ++ [replicate_line]
                           | None => glog st
                           end |} in
      match err with
      | Some e =>
          if decide (i = 0) then (st, Some e)
          else replicateTx_loop tx (S i) rest st
      | None => replicateTx_loop tx (S i) rest st
      end
  end.

Definition replicateTx (bee : localBee C) (tx : Tx) (w : World)
  : repl_state * option error :=
  replicateTx_loop tx 0 (Slaves (beeColony bee))
    {| world := w; sends := []; glog := [] |}.

Definition failed (x : BeeID * option error) : Prop := is_Some x.2.

#[global] Instance failed_dec x : Decision (failed x).
Proof. unfold failed. apply _. Defined.

(** Every failed send has its line in the log, and nothing else has. *)
Definition logged st : Prop :=
  glog st = (λ _, replicate_line) <$> filter failed (sends st).
End replicateTx.

(** ** Handling a message

    [rcvContext] is declared elsewhere in the package.  [handleMsg] uses
    four of its methods, whose error results it drops; they are the
    interface [RcvContext], on the value [C] of the context. *)
Class RcvContext (C : Type) := {
  app_Transactional : C → bool;
  rcvContext_BeginTx : C → C;
  rcvContext_CommitTx : C → C;
  rcvContext_AbortTx : C → C
}.

(** How [handler.Rcv(msg, &bee.ctx)] ends: it returns an error or nil, or
    it panics with a value, which [recover()] then yields.  That value is
    not nil: of a [panic(nil)] the language makes a run-time error. *)
Inductive rcv_end := rcv_returns (err : option error) | rcv_panics (r : string).

(** What [handleMsg] calls, in the order of the calls. *)
Inductive ctx_call :=
  | called_BeginTx | called_Rcv | called_CommitTx | called_AbortTx
  | called_collect.

#[global] Instance ctx_call_eq_dec : EqDecision ctx_call.
Proof. solve_decision. Defined.

Section handleMsg.
Context {C Msg : Type} {RC : RcvContext C}.

(** A handler is its method [Rcv]: it may change the context it is
    given, also when it ends with an error or a panic. *)
Definition Handler : Type := Msg → C → C * rcv_end.

Record msgAndHandler := { msg : Msg; handler : Handler }.

Record msg_state := {
  the_bee : localBee C;
  calls : list ctx_call;
  errlog : list log_line
}.

Definition set_ctx (c : C) (bee : localBee C) : localBee C :=
  {| ctx := c; beeColony := beeColony bee; txBuf := txBuf bee |}.

Definition recoverFromError (st : msg_state) (mh : msgAndHandler) (stack : bool)
  : msg_state :=
  let log := errlog st ++ [glog_Errorf "Error in %s: %v"] in
  let log := if stack then log ++ [glog_Errorf "%s"] else log in
  {| the_bee := set_ctx (rcvContext_AbortTx (ctx (the_bee st))) (the_bee st);
     calls := calls st ++ [called_AbortTx];
     errlog := log |}.

Definition handleMsg (bee : localBee C) (mh : msgAndHandler) : msg_state :=
  let st := {| the_bee := bee; calls := []; errlog := [] |} in
  let st :=
    if app_Transactional (ctx bee)
    then {| the_bee := set_ctx (rcvContext_BeginTx (ctx bee)) bee;
            calls := [called_BeginTx]; errlog := [] |}
    else st in
  let '(c, e) := handler mh (msg mh) (ctx (the_bee st)) in
  let st := {| the_bee := set_ctx c (the_bee st);
               calls := calls st ++ [called_Rcv];
               errlog := errlog st |} in
  match e with
  | rcv_panics r =>
      (* the deferred function: [recover()] is not nil *)
      recoverFromError st mh true
  | rcv_returns (Some err) =>
      recoverFromError st mh false
  | rcv_returns None =>
      {| the_bee := set_ctx (rcvContext_CommitTx (ctx (the_bee st))) (the_bee st);
         calls := calls st ++ [called_CommitTx; called_collect];
         errlog := errlog st |}
  end.

(** The context the handler is given. *)
Definition ctx_at_Rcv (bee : localBee C) : C :=
  if app_Transactional (ctx bee) then rcvContext_BeginTx (ctx bee) else ctx bee.

Definition calls_before_Rcv (bee : localBee C) : list ctx_call :=
  if app_Transactional (ctx bee) then [called_BeginTx] else [].
End handleMsg.

(** ** The loop of the bee

    [start] receives from the data channel and from the control channel,
    whichever is ready.  What the [select] statements of a run receive, in
    their order, is the list [rs]: a value, or the news that the channel
    is closed.  When the list is used up the bee waits in [select]. *)
Section start.
Context {C Msg : Type} {RC : RcvContext C}.

Inductive receive :=
  | recv_data (d : msgAndHandler (C := C) (Msg := Msg))
  | recv_data_closed
  | recv_ctrl (c : LocalCmd)
  | recv_ctrl_closed.

(** How a run of [start] over a list of receives ends. *)
Inductive loop_end :=
  | loop_returns
  | loop_waits
  | loop_panics (what : string)
  | loop_blocks.

(** The bee, the results it sent, the calls of [handleMsg] and the lines
    of the error log. *)
Record loop_state := {
  loop_bee : localBee C;
  loop_sent : sent;
  loop_calls : list ctx_call;
  loop_errlog : list log_line
}.

Fixpoint localBee_start (rs : list receive) (st : loop_state)
  : loop_state * loop_end :=
  match rs with
  | [] => (st, loop_waits)
  | recv_data_closed :: _ => (st, loop_returns)
  | recv_ctrl_closed :: _ => (st, loop_returns)
  | recv_data d :: rs' =>
      let r := handleMsg (loop_bee st) d in
      localBee_start rs'
        {| loop_bee := the_bee r;
           loop_sent := loop_sent st;
           loop_calls := loop_calls st ++ calls r;
           loop_errlog := loop_errlog st ++ errlog r |}
  | recv_ctrl c :: rs' =>
      match handleCmd (loop_bee st) c with
      | Returns ((bee, results), ok) =>
          let st := {| loop_bee := bee;
                       loop_sent := loop_sent st ++ results;
                       loop_calls := loop_calls st;
                       loop_errlog := loop_errlog st |} in
          if ok then localBee_start rs' st else (st, loop_returns)
      | Panics (bee, results) what =>
          ({| loop_bee := bee;
              loop_sent := loop_sent st ++ results;
              loop_calls := loop_calls st;
              loop_errlog := loop_errlog st |}, loop_panics what)
      | BlocksForever (bee, results) =>
          ({| loop_bee := bee;
              loop_sent := loop_sent st ++ results;
              loop_calls := loop_calls st;
              loop_errlog := loop_errlog st |}, loop_blocks)
      end
  end.

(** The receives on which [start] returns. *)
Definition ends_the_loop (r : receive) : Prop :=
  match r with
  | recv_data_closed | recv_ctrl_closed => True
  | recv_ctrl c => CmdType_of c = stopCmd
  | recv_data _ => False
  end.
End start.

(** Modelled from the spec: the methods of [rcvContext] are defined
    elsewhere in the package.  By §4.5 the context gives the handler the transactional
    state of the bee, and opening, committing and aborting the transaction
    of the context is opening, committing and aborting the transaction of
    that state.  [commit_orders] gives, for a state, the orders in which
    [Commit] ranges over its maps. *)
Record rcvContext := {
  state : inMemoryState;
  transactional : bool
}.

Definition set_state (s : inMemoryState) (c : rcvContext) : rcvContext :=
  {| state := s; transactional := transactional c |}.

Definition inMem_RcvContext
    (commit_orders : inMemoryState →
                     list (DictName * ptr) * (ptr → list (Key * StateOp)))
  : RcvContext rcvContext :=
  {| app_Transactional := transactional;
     rcvContext_BeginTx c := set_state (inMemoryState_BeginTx (state c)).1 c;
     rcvContext_CommitTx c :=
       let o := commit_orders (state c) in
       set_state (inMemoryState_CommitTx o.1 o.2 (state c)).1 c;
     rcvContext_AbortTx c := set_state (inMemoryState_AbortTx (state c)).1 c |}.

(** A handler that makes the calls [cs] on the state and ends with [e]. *)
Definition staging_handler {Msg : Type} (cs : list call) (e : rcv_end)
  : Msg → rcvContext → rcvContext * rcv_end :=
  λ _ c, (set_state (run_calls cs (state c)) c, e).

(** ** More of the colony and of the bee *)

#[global] Instance BeeID_countable : Countable BeeID.
Proof.
  refine (inj_countable'
            (λ b, (HiveID_of b, AppName_of b, ID b, Detached b))
            (λ t, {| HiveID_of := t.1.1.1; AppName_of := t.1.1.2;
                     ID := t.1.2; Detached := t.2 |}) _).
  by intros [].
Defined.

(** The second loop of [Eq]: is every bee of [thatSlaves] a key of the map
    [slaves]? *)
Fixpoint Eq_loop (slaves : gmap BeeID bool) (thatSlaves : list BeeID) : bool :=
  match thatSlaves with
  | [] => true
  | b :: rest =>
      match slaves !! b with
      | None => false
      | Some _ => Eq_loop slaves rest
      end
  end.

Definition BeeColony_Eq (c thatC : BeeColony) : bool :=
  if decide (Master c ≠ Master thatC) then false
  else if decide (length (Slaves c) ≠ length (Slaves thatC)) then false
  else if decide (length (Slaves c) = 0 ∧ length (Slaves thatC) = 0) then true
  else
    let slaves := foldl (λ m b, <[b := true]> m) ∅ (Slaves c) in
    Eq_loop slaves (Slaves thatC).

Section notifyCommitTx.
Context {C World : Type}.
Variable SendCmd : World → HiveID → RemoteCmd → World * option error.

(** The loop of [notifyCommitTx]; [ret] is the variable of that name. *)
Fixpoint notifyCommitTx_loop (tx : TxSeq) (slaves : list BeeID)
    (st : repl_state (World := World)) (ret : option error)
  : repl_state (World := World) * option error :=
  match slaves with
  | [] => (st, ret)
  | s :: rest =>
      let cmd := NewRemoteCmd commitTxCmd (any_TxSeq tx) s in
      let '(w, err) := SendCmd (world st) (HiveID_of s) cmd in
      let st := {| world := w; sends := sends st ++ [(s, err)]; glog := glog st |} in
      let ret := match err with
                 | Some e => Some e
                 | None => ret
                 end in
      notifyCommitTx_loop tx rest st ret
  end.

Definition notifyCommitTx (bee : localBee C) (tx : TxSeq) (w : World)
  : repl_state (World := World) * option error :=
  notifyCommitTx_loop tx (Slaves (beeColony bee))
    {| world := w; sends := []; glog := [] |} None.
End notifyCommitTx.

(** Vocabulary of the properties of [replicateTx] and [notifyCommitTx]:
    one call of [SendCmd] for each slave, in the order of the list, each
    on the network as the call before it left it.  The result is the
    network at the end and, for each slave, what its call returned.  [mk]
    makes the command for a slave. *)
Section send_each.
Context {World : Type}.
Variable SendCmd : World → HiveID → RemoteCmd → World * option error.

Fixpoint send_each (mk : BeeID → RemoteCmd) (w : World) (slaves : list BeeID)
  : World * list (BeeID * option error) :=
  match slaves with
  | [] => (w, [])
  | s :: rest =>
      let '(w1, err) := SendCmd w (HiveID_of s) (mk s) in
      let '(w2, l) := send_each mk w1 rest in
      (w2, (s, err) :: l)
  end.
End send_each.

(** ** Every method of the state

    What a user of the state calls: the methods of the state, and [Put]
    and [Del] on a [Dict] value it returned.  [CommitTx] comes with the
    orders its loops take. *)
Inductive api_call :=
  | api_BeginTx
  | api_CommitTx (stage_order : list (DictName * ptr))
                 (ops_order : ptr → list (Key * StateOp))
  | api_AbortTx
  | api_Dict (n : DictName)
  | api_Put (r : DictRef) (k : Key) (v : Value)
  | api_Del (r : DictRef) (k : Key).

Definition run_api_call (s : inMemoryState) (a : api_call) : inMemoryState :=
  match a with
  | api_BeginTx => (inMemoryState_BeginTx s).1
  | api_CommitTx stage_order ops_order =>
      (inMemoryState_CommitTx stage_order ops_order s).1
  | api_AbortTx => (inMemoryState_AbortTx s).1
  | api_Dict n => (inMemoryState_Dict s n).1
  | api_Put r k v => (Dict_Put s r k v).1
  | api_Del r k => (Dict_Del s r k).1
  end.

Definition run_api (cs : list api_call) (s : inMemoryState) : inMemoryState :=
  foldl run_api_call s cs.

(** Every operation of the staged dict [d] is kept under its own key and
    names the dict [u]. *)
Definition keyed_ops (u : inMemDict) (d : inMemStagedDict) : Prop :=
  ∀ k o, ops d !! k = Some o → K o = k ∧ D o = dictName u.

(** Every staged dict is over a dict the state has, with its operations
    keyed, and the stage has for the name [n] a staged dict over the dict
    of that name. *)
Definition well_staged (s : inMemoryState) : Prop :=
  (∀ p d, heap s !! p = Some d →
          ∃ u, Dicts s !! dict d = Some u ∧ keyed_ops u d) ∧
  (∀ t n p, tx s = Some t → stage t !! n = Some p →
            ∃ d, heap s !! p = Some d ∧ dict d = n).

(** What a dict holds for [k] once the operations [m] are committed on
    [base]. *)
Definition committed (m : gmap Key StateOp) (base : gmap Key Value) (k : Key)
  : option Value :=
  match m !! k with
  | Some o => match T o with Put => Some (V o) | Del => None end
  | None => base !! k
  end.

(** The orders [so] and [oo] are orders in which [Commit] and [Tx] may
    range over the stage and over the operations of the staged dicts. *)
Definition range_orders (s : inMemoryState) (so : list (DictName * ptr))
    (oo : ptr → list (Key * StateOp)) : Prop :=
  (∀ t, tx s = Some t → range_order (stage t) so) ∧
  (∀ p d, heap s !! p = Some d → range_order (ops d) (oo p)).

(** ** Vocabulary of the properties *)

(** [s.Dicts[n].Get(k)], with the dict made on demand as [inMemDict] makes
    it. *)
Definition underlying_Get (s : inMemoryState) (n : DictName) (k : Key)
  : Value * option error :=
  match Dicts s !! n with
  | Some u => inMemDict_Get u k
  | None => (nilValue, Some (errors_New "Key does not exist."))
  end.

(** The dicts of [s'] are those of [s], but for dicts [s] has not and [s']
    has empty. *)
Definition same_underlying (s s' : inMemoryState) : Prop :=
  ∀ n, Dicts s' !! n = Dicts s !! n ∨
       (Dicts s !! n = None ∧ Dicts s' !! n = Some {| dictName := n; Dict := ∅ |}).

(** One step of [last_staged]. *)
Definition staged_step (p : ptr) (k : Key) (acc : option (StateOpType * Value))
    (c : call) : option (StateOpType * Value) :=
  match c with
  | call_Put p' k' v => if decide (p' = p ∧ k' = k) then Some (Put, v) else acc
  | call_Del p' k' => if decide (p' = p ∧ k' = k) then Some (Del, nilValue) else acc
  | call_Dict _ => acc
  end.

(** The most recent operation that the calls [cs] stage for the key [k] on
    the staged dict at [p], with its value; [None] when they stage none. *)
Definition last_staged (p : ptr) (k : Key) (cs : list call)
  : option (StateOpType * Value) :=
  foldl (staged_step p k) None cs.

(** The staged dict at [p] is a view of the dict [n] and holds, for every
    key, the most recent operation of [cs]. *)
Definition view_reflects (s : inMemoryState) (p : ptr) (n : DictName)
    (cs : list call) : Prop :=
  ∃ d, heap s !! p = Some d ∧ dict d = n ∧ is_Some (Dicts s !! n) ∧
       (∀ k, (λ o, (T o, V o)) <$> ops d !! k = last_staged p k cs) ∧
       (∀ k o, ops d !! k = Some o → K o = k).

(** The calls [ForEach] makes of its function, in order. *)
Definition ForEach_visits (s : inMemoryState) (r : DictRef)
    (order : list (Key * Value)) : list (Key * Value) :=
  Dict_ForEach s r order (λ k v acc, acc ++ [(k, v)]) [].

(** What the staged [ForEach] passes on for one entry of the underlying
    dict. *)
Definition staged_visit (d : inMemStagedDict) (kv : Key * Value)
  : list (Key * Value) :=
  match ops d !! kv.1 with
  | Some op =>
      match T op with
      | Put => [(K op, V op)]
      | Del => []
      end
  | None => [kv]
  end.

(** The keys the design document gives for [ForEach] inside a
    transaction: (underlying keys ∖ staged-deleted keys) ∪ staged-put
    keys. *)
Definition spec_ForEach_key (u : inMemDict) (p : ptr) (cs : list call) (k : Key)
  : Prop :=
  (is_Some (Dict u !! k) ∧ fst <$> last_staged p k cs ≠ Some Del)
  ∨ fst <$> last_staged p k cs = Some Put.

(** The number of operations the staged dict at [p] holds. *)
Definition staged_count (s : inMemoryState) (np : DictName * ptr) : nat :=
  match heap s !! np.2 with
  | Some d => size (ops d)
  | None => 0
  end.

(** The operations of the staged dict at [p], as [Tx] ranges over them. *)
Definition staged_ops (s : inMemoryState) (ops_order : ptr → list (Key * StateOp))
    (np : DictName * ptr) : list StateOp :=
  match heap s !! np.2 with
  | Some d => (ops_order np.2).*2
  | None => []
  end.

(** The orders in which [gmap] lists the maps of a state: one of the
    orders [Commit] may take. *)
Definition canonical_orders (s : inMemoryState)
  : list (DictName * ptr) * (ptr → list (Key * StateOp)) :=
  (match tx s with
   | Some t => map_to_list (stage t)
   | None => []
   end,
   λ p, match heap s !! p with
        | Some d => map_to_list (ops d)
        | None => []
        end).

(** ** Sample values *)

Definition sample_state : inMemoryState :=
  {| Name := "state"; Dicts := ∅; tx := None; heap := [] |}.

Definition sample_master : BeeID :=
  {| HiveID_of := "hive1"; AppName_of := "app"; ID := 1%N; Detached := false |}.
Definition sample_slave : BeeID :=
  {| HiveID_of := "hive2"; AppName_of := "app"; ID := 2%N; Detached := false |}.
Definition sample_stranger : BeeID :=
  {| HiveID_of := "hive3"; AppName_of := "app"; ID := 3%N; Detached := false |}.

Definition sample_tx : Tx := {| Seq := 1%N; Ops := []; Status := TxOpen |}.

(** A transactional bee over the sample state, with no slave. *)
Definition sample_ctx_bee : localBee rcvContext :=
  {| ctx := {| state := sample_state; transactional := true |};
     beeColony := {| Master := sample_master; Slaves := [] |};
     txBuf := [] |}.

(** A bee with one slave and one buffered transaction. *)
Definition sample_bee : localBee unit :=
  {| ctx := tt;
     beeColony := {| Master := sample_master; Slaves := [sample_slave] |};
     txBuf := [sample_tx] |}.

End bh.

Module beehive.

(** ** [hive.ReplyTo]

    The payload of a message is an [interface{}]; its type is the
    parameter [Data]. *)
Section hive.
Context {Data : Type}.

(** Modelled from the spec: [msg] and its methods are declared elsewhere
    in the package.  [hive.go] reads the fields [MsgData] and [MsgTo]
    and builds a message to a bee with [newMsgFromData(data, 0, to)];
    by §3 a message has a source and a destination, it is unicast iff
    its destination is not zero, and there is no reply to it iff its
    source is zero. *)
Record msg := { MsgData : Data; MsgFrom : N; MsgTo : N }.

Definition msg_From (m : msg) : N := MsgFrom m.
Definition msg_NoReply (m : msg) : bool := bool_decide (MsgFrom m = 0%N).
Definition msg_IsUnicast (m : msg) : bool := bool_decide (MsgTo m ≠ 0%N).
Definition newMsgFromData (data : Data) (from to : N) : msg :=
  {| MsgData := data; MsgFrom := from; MsgTo := to |}.

(** [hive]: its id and what was sent on its data channel. *)
Record hive := { hive_id : N; dataCh : list msg }.

Definition hive_emitMsg (h : hive) (m : msg) : hive :=
  {| hive_id := hive_id h; dataCh := dataCh h ++ [m] |}.

Definition hive_SendToBee (h : hive) (msgData : Data) (to : N) : hive :=
  hive_emitMsg h (newMsgFromData msgData 0 to).

(** Modelled from the spec: the interface [Msg] is declared elsewhere in
    the package.  A value of it is nil, or a [*msg] with the message it
    points to, or a value of another type that implements [Msg]; by §3
    every message has a source, which [from] is for the other types.  A
    [*msg] that points to no message is left out: what the methods of
    [msg] do on it is not in the sources. *)
Inductive Msg := Msg_nil | Msg_msg (m : msg) | Msg_other (from : N).

(** The assertion of [ReplyTo] that [thatMsg] is a [*msg], in its
    one-result form: it panics on nil and on any other type. *)
Definition assert_msg (h : hive) (x : Msg) : outcome hive msg :=
  match x with
  | Msg_msg m => Returns m
  | Msg_nil | Msg_other _ => Panics h "interface conversion: not *beehive.msg"
  end.

Definition hive_ReplyTo (h : hive) (thatMsg : Msg) (replyData : Data)
  : outcome hive (hive * option error) :=
  m ← assert_msg h thatMsg;
  if msg_NoReply m
  then Returns (h, Some (errors_New "Cannot reply to this message."))
  else Returns (hive_emitMsg h (newMsgFromData replyData 0 (msg_From m)), None).

(** What the design states of [ReplyTo] on a message whose source is
    [from], as a property of the way [r] the call ends: an error and no
    message for the source zero, and else nil and exactly one message
    more, to [from] and from zero. *)
Definition spec_ReplyTo (h : hive) (from : N)
    (r : outcome hive (hive * option error)) : Prop :=
  if decide (from = 0%N) then ∃ e, r = Returns (h, Some e)
  else ∃ m', r = Returns ({| hive_id := hive_id h; dataCh := dataCh h ++ [m'] |},
                          None) ∧
             MsgTo m' = from ∧ MsgFrom m' = 0%N.
End hive.
Arguments msg : clear implicits.
Arguments hive : clear implicits.
Arguments Msg : clear implicits.

(** A sample hive, which has sent nothing yet. *)
Definition sample_hive : hive string := {| hive_id := 1; dataCh := [] |}.

(** ** [hive.registerHandler]

    The handlers are of a type [Handler]; a [*qee] is known by its
    address.  The method acts on the field [qees] of the hive, a map from
    the type of a message to the qees that handle it, each with its
    handler. *)
Section registerHandler.
Context {Handler : Type}.

Definition qee_ptr := nat.

Record qeeAndHandler := { q : qee_ptr; h : Handler }.

(** The loop of [registerHandler] from index [i] on, [rest] being
    [h.qees[t][i:]]: at the first entry of the qee it sets the handler of
    that entry, in place. *)
Fixpoint registerHandler_loop (all : list qeeAndHandler) (q0 : qee_ptr)
    (l : Handler) (i : nat) (rest : list qeeAndHandler)
  : option (list qeeAndHandler) :=
  match rest with
  | [] => None
  | qh :: rest' =>
      if decide (q qh = q0) then Some (<[i := {| q := q qh; h := l |}]> all)
      else registerHandler_loop all q0 l (S i) rest'
  end.

Definition hive_registerHandler (qees : gmap string (list qeeAndHandler))
    (t : string) (q0 : qee_ptr) (l : Handler)
  : gmap string (list qeeAndHandler) :=
  let qs := default [] (qees !! t) in
  match registerHandler_loop qs q0 l 0 qs with
  | Some qs' => <[t := qs']> qees
  | None => <[t := qs ++ [{| q := q0; h := l |}]]> qees
  end.
End registerHandler.
Arguments qeeAndHandler : clear implicits.

End beehive.

(** * Properties *)

Ltac list_has := apply list_elem_of_In; simpl; tauto.
Ltac list_has_not :=
  let Hmem := fresh in
  intros Hmem%list_elem_of_In; simpl in Hmem; intuition discriminate.


Section range_facts.
Context `{Countable Kt} {A : Type}.
Implicit Types (m : gmap Kt A) (order : list (Kt * A)).

Lemma range_order_canonical m : range_order m (map_to_list m).
Proof. by unfold range_order. Qed.

Lemma range_order_NoDup_keys m order : range_order m order → NoDup order.*1.
Proof. unfold range_order. intros ->. apply NoDup_fst_map_to_list. Qed.

Lemma range_order_elem m order k v :
  range_order m order → (k, v) ∈ order ↔ m !! k = Some v.
Proof. unfold range_order. intros ->. apply elem_of_map_to_list. Qed.

Lemma range_order_length m order : range_order m order → length order = size m.
Proof. unfold range_order. intros ->. apply length_map_to_list. Qed.
End range_facts.

(** ** The hive *)

Section ReplyTo.
Import beehive.
Context {Data : Type}.
Implicit Types (h : hive Data) (x : Msg Data) (m : msg Data) (d : Data).

(** C10, as the code has it.  On a [*msg], [ReplyTo] returns an error and
    leaves the data channel as it was when the message has no source;
    else it returns nil and the data channel has exactly one message
    more, whose destination is the source of the message replied to,
    whose own source is zero and whose data is the reply.  On a nil [Msg]
    and on a message of any other type it panics: it returns nothing and
    the hive is as it was. *)
Theorem ReplyTo_emits_one_reply_or_fails h x d :
  hive_ReplyTo h x d =
    match x with
    | Msg_msg m =>
        if decide (MsgFrom m = 0%N)
        then Returns (h, Some (errors_New "Cannot reply to this message."))
        else Returns
               ({| hive_id := hive_id h;
                   dataCh := dataCh h ++
                             [{| MsgData := d; MsgFrom := 0; MsgTo := MsgFrom m |}] |},
                None)
    | Msg_nil | Msg_other _ => Panics h "interface conversion: not *beehive.msg"
    end.
Proof.
  destruct x as [|m|from]; [done| |done].
  unfold hive_ReplyTo, msg_NoReply, hive_emitMsg, newMsgFromData, msg_From.
  simpl. destruct (decide (MsgFrom m = 0%N)) as [Hz|Hnz].
  - by rewrite bool_decide_eq_true_2.
  - by rewrite bool_decide_eq_false_2.
Qed.

(** On a [*msg] the call ends as the design states it. *)
Lemma ReplyTo_on_msg h m d : spec_ReplyTo h (MsgFrom m) (hive_ReplyTo h (Msg_msg m) d).
Proof.
  unfold spec_ReplyTo, hive_ReplyTo, msg_NoReply, hive_emitMsg, newMsgFromData,
    msg_From.
  simpl. destruct (decide (MsgFrom m = 0%N)) as [Hz|Hnz].
  - rewrite bool_decide_eq_true_2 by done. eauto.
  - rewrite bool_decide_eq_false_2 by done. eauto.
Qed.
End ReplyTo.

Section ReplyTo_sample.
Import beehive.

(** C10, as stated, fails.  A message of another type than [*msg], with
    the source 7, is a message with a source: the design has [ReplyTo]
    emit one message to 7 and return nil, and the call panics. *)
Lemma ReplyTo_panics_on_other_Msg :
  ¬ spec_ReplyTo sample_hive 7 (hive_ReplyTo sample_hive (Msg_other 7) "reply").
Proof. unfold spec_ReplyTo. simpl. by intros (m' & ? & _). Qed.
End ReplyTo_sample.

(** ** Replication *)

Section replicateTx_facts.
Import bh.
Context {C World : Type}.
Variable SendCmd : World → HiveID → RemoteCmd → World * option error.
Implicit Types (st : repl_state (World := World)) (slaves : list BeeID).

Lemma replicateTx_loop_logged tx slaves : ∀ i st,
  logged st → logged (replicateTx_loop SendCmd tx i slaves st).1.
Proof.
  induction slaves as [|s rest IH]; intros i st Hl; [done|].
  simpl. destruct (SendCmd _ _ _) as [w [e|]] eqn:Hs.
  - assert (logged {| world := w; sends := sends st ++ [(s, Some e)];
                      glog := glog st ++ [replicate_line] |}) as Hl'.
    { unfold logged in *. simpl. by rewrite filter_app, fmap_app, Hl. }
    destruct (decide (i = 0)); [done|]. by apply IH.
  - apply IH. unfold logged in *. simpl. rewrite filter_app, fmap_app, Hl.
    by rewrite app_nil_r.
Qed.

(** Past the first slave the loop goes through all the slaves and returns
    nil. *)
Lemma replicateTx_loop_rest tx slaves : ∀ i st,
  i ≠ 0 →
  (replicateTx_loop SendCmd tx i slaves st).2 = None ∧
  (sends (replicateTx_loop SendCmd tx i slaves st).1).*1
    = (sends st).*1 ++ slaves.
Proof.
  induction slaves as [|s rest IH]; intros i st Hi; simpl.
  - by rewrite app_nil_r.
  - destruct (SendCmd _ _ _) as [w [e|]] eqn:Hs.
    + rewrite decide_False by done.
      destruct (IH (S i) {| world := w; sends := sends st ++ [(s, Some e)];
                            glog := glog st ++ [replicate_line] |}) as [-> ->];
        [lia|].
      simpl. by rewrite fmap_app, <-app_assoc.
    + destruct (IH (S i) {| world := w; sends := sends st ++ [(s, None)];
                            glog := glog st |}) as [-> ->]; [lia|].
      simpl. by rewrite fmap_app, <-app_assoc.
Qed.

Lemma send_each_slaves (mk : BeeID → RemoteCmd) slaves : ∀ w : World,
  (send_each SendCmd mk w slaves).2.*1 = slaves.
Proof.
  induction slaves as [|s rest IH]; intros w; simpl; [done|].
  destruct (SendCmd _ _ _) as [w1 err]. specialize (IH w1).
  destruct (send_each _ _ _ _) as [w2 l]. simpl in *. by f_equal.
Qed.

(** Past the first slave the loop is [send_each]: it calls [SendCmd] for
    every slave that is left, and writes a line for every call that
    fails. *)
Lemma replicateTx_loop_after_first tx slaves : ∀ i st,
  i ≠ 0 →
  replicateTx_loop SendCmd tx i slaves st
  = (let all := send_each SendCmd (NewRemoteCmd bufferTxCmd (any_Tx tx))
                  (world st) slaves in
     {| world := all.1;
        sends := sends st ++ all.2;
        glog := glog st ++ ((λ _, replicate_line) <$> filter failed all.2) |},
     None).
Proof.
  induction slaves as [|s rest IH]; intros i st Hi; simpl.
  - rewrite !app_nil_r. by destruct st.
  - destruct (SendCmd _ _ _) as [w1 [e|]] eqn:Hs.
    + rewrite decide_False by done. rewrite IH by lia. simpl.
      destruct (send_each _ _ _ _) as [w2 l]. simpl.
      by rewrite <-!app_assoc.
    + rewrite IH by lia. simpl.
      destruct (send_each _ _ _ _) as [w2 l]. simpl.
      by rewrite <-!app_assoc.
Qed.

(** C3.  [replicateTx] returns the error of its call of [SendCmd] for the
    first slave: an error if and only if that call fails (and nil when
    there is no slave).  When the call for the first slave succeeds,
    [SendCmd] is called for every slave, in the order of the list,
    whatever the other calls return, and the error log has exactly one
    line for every call that failed.  When it fails, no other slave is
    sent to and the log has the one line. *)
Theorem replicateTx_error_iff_first_send_fails
    (bee : localBee C) (tx : Tx) (w : World) :
  let mk := NewRemoteCmd bufferTxCmd (any_Tx tx) in
  let r := replicateTx SendCmd bee tx w in
  let all := send_each SendCmd mk w (Slaves (beeColony bee)) in
  r.2 = match Slaves (beeColony bee) with
        | [] => None
        | s :: _ => (SendCmd w (HiveID_of s) (mk s)).2
        end
  ∧ (r.2 = None →
     r.1 = {| world := all.1; sends := all.2;
              glog := (λ _, replicate_line) <$> filter failed all.2 |} ∧
     all.2.*1 = Slaves (beeColony bee))
  ∧ (∀ e, r.2 = Some e →
          ∃ s rest, Slaves (beeColony bee) = s :: rest ∧
                    r.1 = {| world := (SendCmd w (HiveID_of s) (mk s)).1;
                             sends := [(s, Some e)];
                             glog := [replicate_line] |}).
Proof.
  intros mk r all. subst mk r all. unfold replicateTx.
  destruct (Slaves (beeColony bee)) as [|s rest]; simpl.
  { split_and!; [done|done|]. by intros e. }
  destruct (SendCmd w (HiveID_of s) _) as [w1 [e|]] eqn:Hs; simpl.
  - split_and!; [done|done|]. intros e' [= <-]. exists s, rest.
    by rewrite Hs.
  - rewrite replicateTx_loop_after_first by lia. simpl.
    pose proof (send_each_slaves (NewRemoteCmd bufferTxCmd (any_Tx tx)) rest w1)
      as Hsl.
    destruct (send_each SendCmd _ w1 rest) as [w2 l]. simpl in *.
    split_and!; [done| |by intros e].
    intros _. split; [|by f_equal].
    rewrite filter_cons_False; [done|]. by intros [? [=]].
Qed.
End replicateTx_facts.

(** ** Control commands of a bee *)

Section handleCmd_facts.
Import bh.
Context {C : Type}.
Implicit Types (bee : localBee C) (c : BeeColony) (id : BeeID).

Lemma AddSlave_loop_elem id slaves : AddSlave_loop id slaves = true ↔ id ∈ slaves.
Proof.
  induction slaves as [|s rest IH]; simpl.
  - split; [done|]. by intros ?%elem_of_nil.
  - rewrite elem_of_cons. destruct (decide (s = id)) as [->|Hne].
    + split; auto.
    + rewrite IH. split; [auto|]. intros [->|?]; done.
Qed.

Lemma AddSlave_known c id :
  id ∈ Slaves c → BeeColony_AddSlave c id = (c, false).
Proof.
  intros Hin. unfold BeeColony_AddSlave.
  by rewrite (proj2 (AddSlave_loop_elem id (Slaves c)) Hin).
Qed.

Lemma AddSlave_new c id :
  id ∉ Slaves c →
  BeeColony_AddSlave c id
    = ({| Master := Master c; Slaves := Slaves c ++ [id] |}, true).
Proof.
  intros Hin. unfold BeeColony_AddSlave.
  destruct (AddSlave_loop id (Slaves c)) eqn:Hl; [|done].
  by apply AddSlave_loop_elem in Hl.
Qed.

Lemma DelSlave_loop_None all id rest i :
  id ∉ rest → DelSlave_loop all id i rest = None.
Proof.
  revert i. induction rest as [|s rest IH]; intros i Hin; [done|].
  simpl. apply not_elem_of_cons in Hin as [Hne Hin].
  rewrite decide_False by done. by apply IH.
Qed.

Lemma DelSlave_unknown c id :
  id ∉ Slaves c → BeeColony_DelSlave c id = (c, false).
Proof.
  intros Hin. unfold BeeColony_DelSlave. by rewrite DelSlave_loop_None.
Qed.

Lemma drop_cons_next {X} (l : list X) : ∀ i x rest,
  drop i l = x :: rest → drop (S i) l = rest ∧ i < length l.
Proof.
  induction l as [|y l IH]; intros i x rest Hd.
  - by rewrite drop_nil in Hd.
  - destruct i as [|i]; simpl in *.
    + inversion Hd. split; [by rewrite drop_0|lia].
    + destruct (IH i x rest Hd) as [? ?]. split; [done|lia].
Qed.

(** [DelSlave] takes out the first slave equal to [id]. *)
Lemma DelSlave_loop_Some all id rest : ∀ i,
  drop i all = rest → id ∈ rest →
  ∃ l1 l2, all = l1 ++ (id :: l2) ∧ (id ∉ drop i l1) ∧ i ≤ length l1 ∧
           DelSlave_loop all id i rest = Some (l1 ++ l2).
Proof.
  induction rest as [|s rest IH]; intros i Hd Hin.
  - by apply elem_of_nil in Hin.
  - simpl. destruct (drop_cons_next _ _ _ _ Hd) as [Hd' Hlt].
    destruct (decide (s = id)) as [->|Hne].
    + exists (take i all), (drop (S i) all). split_and!.
      * rewrite <-(take_drop i all) at 1. by rewrite Hd, Hd'.
      * rewrite drop_ge; [apply not_elem_of_nil|]. rewrite length_take. lia.
      * rewrite length_take. lia.
      * done.
    + apply elem_of_cons in Hin as [->|Hin]; [done|].
      destruct (IH (S i) Hd' Hin) as (l1 & l2 & Hall & Hnot & Hlen & Hloop).
      exists l1, l2. split_and!; [done| |lia|done].
      destruct (drop i l1) as [|x xs] eqn:Hdl.
      { apply not_elem_of_nil. }
      destruct (drop_cons_next _ _ _ _ Hdl) as [Hxs _].
      assert (x = s) as ->.
      { rewrite Hall, drop_app_le, Hdl in Hd by lia. by inversion Hd. }
      rewrite Hxs in Hnot. by apply not_elem_of_cons.
Qed.

Lemma DelSlave_known c id :
  id ∈ Slaves c →
  ∃ l1 l2, Slaves c = l1 ++ (id :: l2) ∧ (id ∉ l1) ∧
           BeeColony_DelSlave c id
             = ({| Master := Master c; Slaves := l1 ++ l2 |}, true).
Proof.
  intros Hin. unfold BeeColony_DelSlave.
  destruct (DelSlave_loop_Some (Slaves c) id (Slaves c) 0)
    as (l1 & l2 & Hall & Hnot & _ & ->); [done|done|].
  exists l1, l2. by rewrite drop_0 in Hnot.
Qed.
End handleCmd_facts.

Section handleCmd_cases.
Import bh.
Context {C : Type}.
Implicit Types (bee : localBee C) (cmd : LocalCmd).

Lemma commitTx_loop_None seq txs :
  commitTx_loop seq txs = None ↔ ∀ tx, tx ∈ txs → Seq tx ≠ seq.
Proof.
  induction txs as [|tx rest IH]; simpl.
  - split; [|done]. by intros _ tx ?%elem_of_nil.
  - destruct (decide (seq = Seq tx)) as [->|Hne].
    + split; [done|]. intros Hall. destruct (Hall tx); [left|done].
    + rewrite IH. split.
      * intros Hall tx' [->|?]%elem_of_cons; [done|by apply Hall].
      * intros Hall tx' ?. apply Hall. by right.
Qed.

(** Whatever the sequence number, a [commitTxCmd] that returns leaves the
    bee as it was: [txBuf] is not written. *)
Lemma commitTxCmd_keeps_bee bee cmd st continue :
  CmdType_of cmd = commitTxCmd →
  handleCmd bee cmd = Returns (st, continue) → st.1 = bee.
Proof.
  unfold handleCmd. intros ->.
  destruct (CmdData cmd); simpl; try done.
  destruct (commitTx_loop q (txBuf bee)), (ResCh cmd); simpl; try done;
    by intros [= <- _].
Qed.

Lemma commitTxCmd_not_found bee seq ch :
  (∀ tx, tx ∈ txBuf bee → Seq tx ≠ seq) →
  handleCmd bee {| CmdType_of := commitTxCmd; CmdData := any_TxSeq seq;
                   ResCh := Some ch |}
  = Returns ((bee, [(ch, {| Data := any_nil;
                            Err := Some (fmt_Errorf "Transaction #%d not found.") |})]),
             true).
Proof.
  intros Hall%commitTx_loop_None. unfold handleCmd. simpl. by rewrite Hall.
Qed.

Lemma addSlaveCmd_new bee id ch :
  id ∉ Slaves (beeColony bee) →
  handleCmd bee {| CmdType_of := addSlaveCmd;
                   CmdData := any_addSlaveCmdData {| addSlaveCmdData_BeeID := id |};
                   ResCh := Some ch |}
  = Returns ((set_beeColony {| Master := Master (beeColony bee);
                               Slaves := Slaves (beeColony bee) ++ [id] |} bee,
              [(ch, {| Data := any_nil; Err := None |})]), true).
Proof.
  intros Hnew. unfold handleCmd. simpl. by rewrite AddSlave_new.
Qed.

Lemma delSlaveCmd_known bee id ch :
  id ∈ Slaves (beeColony bee) →
  ∃ l1 l2, Slaves (beeColony bee) = l1 ++ (id :: l2) ∧ (id ∉ l1) ∧
    handleCmd bee {| CmdType_of := delSlaveCmd;
                     CmdData := any_delSlaveCmdData {| delSlaveCmdData_BeeID := id |};
                     ResCh := Some ch |}
    = Returns ((set_beeColony {| Master := Master (beeColony bee);
                                 Slaves := l1 ++ l2 |} bee,
                [(ch, {| Data := any_nil; Err := None |})]), true).
Proof.
  intros Hin. destruct (DelSlave_known _ _ Hin) as (l1 & l2 & Hs & Hn & Hd).
  exists l1, l2. split_and!; [done..|].
  unfold handleCmd. simpl. by rewrite Hd.
Qed.

(** In the error cases the second type assertion, on the way to the text
    of the error, fails: the data of the command is the command's own data
    type, not a [BeeID].  No result is sent. *)
Lemma addSlaveCmd_known_panics bee id ch :
  id ∈ Slaves (beeColony bee) →
  handleCmd bee {| CmdType_of := addSlaveCmd;
                   CmdData := any_addSlaveCmdData {| addSlaveCmdData_BeeID := id |};
                   ResCh := Some ch |}
  = Panics (set_beeColony (beeColony bee) bee, [])
           "interface conversion: not bh.BeeID".
Proof.
  intros Hin. unfold handleCmd. simpl. by rewrite AddSlave_known.
Qed.

Lemma delSlaveCmd_unknown_panics bee id ch :
  id ∉ Slaves (beeColony bee) →
  handleCmd bee {| CmdType_of := delSlaveCmd;
                   CmdData := any_delSlaveCmdData {| delSlaveCmdData_BeeID := id |};
                   ResCh := Some ch |}
  = Panics (set_beeColony (beeColony bee) bee, [])
           "interface conversion: not bh.BeeID".
Proof.
  intros Hin. unfold handleCmd. simpl. by rewrite DelSlave_unknown.
Qed.
End handleCmd_cases.

Section handleCmd_samples.
Import bh.

(** C4.  On the sample bee, whose buffer holds the open transaction 1, the
    command CommitTx{1} replies with success and the buffer is as before:
    the status of the buffered transaction is still open. *)
Theorem commitTxCmd_found_status_not_written :
  handleCmd sample_bee
    {| CmdType_of := commitTxCmd; CmdData := any_TxSeq 1%N; ResCh := Some 0 |}
  = Returns ((sample_bee, [(0, {| Data := any_nil; Err := None |})]), true)
  ∧ Status <$> txBuf sample_bee = [TxOpen].
Proof. split; reflexivity. Qed.

(** C8.  On the sample bee, whose only slave is [sample_slave], the command
    AddSlave{sample_slave} and the command DelSlave{sample_stranger} both
    panic before any result is sent; the slaves are as before. *)
Theorem slave_cmd_error_cases_panic :
  handleCmd sample_bee
    {| CmdType_of := addSlaveCmd;
       CmdData := any_addSlaveCmdData {| addSlaveCmdData_BeeID := sample_slave |};
       ResCh := Some 0 |}
  = Panics (sample_bee, []) "interface conversion: not bh.BeeID"
  ∧
  handleCmd sample_bee
    {| CmdType_of := delSlaveCmd;
       CmdData := any_delSlaveCmdData {| delSlaveCmdData_BeeID := sample_stranger |};
       ResCh := Some 0 |}
  = Panics (sample_bee, []) "interface conversion: not bh.BeeID".
Proof. split; reflexivity. Qed.
End handleCmd_samples.

(** ** The in-memory state: commit and [Tx] *)

Section commit_facts.
Import bh.
Implicit Types (s : inMemoryState) (o : StateOp) (n : DictName).

Lemma commit_op_frame n s o :
  tx (commit_op n s o) = tx s ∧ heap (commit_op n s o) = heap s.
Proof. unfold commit_op. by destruct (Dicts s !! n), (T o). Qed.

Lemma commit_ops_frame n (os : list (Key * StateOp)) : ∀ s,
  tx (foldl (λ s ko, commit_op n s ko.2) s os) = tx s ∧
  heap (foldl (λ s ko, commit_op n s ko.2) s os) = heap s.
Proof.
  induction os as [|ko os IH]; intros s; [done|]. simpl.
  destruct (IH (commit_op n s ko.2)) as [-> ->]. apply commit_op_frame.
Qed.

(** [Commit] writes neither the field [tx] of the state nor the staged
    dicts: the stage is as it was. *)
Lemma Commit_frame stage_order ops_order : ∀ s,
  tx (inMemoryTx_Commit stage_order ops_order s) = tx s ∧
  heap (inMemoryTx_Commit stage_order ops_order s) = heap s.
Proof.
  unfold inMemoryTx_Commit.
  induction stage_order as [|np so IH]; intros s; [done|]. simpl.
  destruct (heap s !! np.2) as [d|]; [|apply IH].
  destruct (IH (foldl (λ s ko, commit_op (dict d) s ko.2) s (ops_order np.2)))
    as [-> ->].
  apply commit_ops_frame.
Qed.

Lemma CommitTx_keeps_tx stage_order ops_order s :
  tx (inMemoryState_CommitTx stage_order ops_order s).1 = tx s.
Proof.
  unfold inMemoryState_CommitTx. destruct (tx s) eqn:Ht; simpl; [|done].
  rewrite <-Ht. apply Commit_frame.
Qed.

(** Once a transaction was begun, [BeginTx] fails, also after [CommitTx]
    and after [AbortTx]. *)
Lemma BeginTx_after_CommitTx stage_order ops_order s :
  is_Some (tx s) →
  (inMemoryState_BeginTx (inMemoryState_CommitTx stage_order ops_order s).1).2
  = Some (errors_New "Transaction is already started").
Proof.
  intros [t Ht]. unfold inMemoryState_BeginTx.
  by rewrite CommitTx_keeps_tx, Ht.
Qed.

Lemma BeginTx_after_AbortTx s :
  is_Some (tx s) →
  (inMemoryState_BeginTx (inMemoryState_AbortTx s).1).2
  = Some (errors_New "Transaction is already started").
Proof.
  intros [t Ht]. unfold inMemoryState_BeginTx, inMemoryState_AbortTx.
  rewrite Ht. simpl. unfold inMemoryTx_Abort. by rewrite Ht.
Qed.

(** What the inner loop of [Commit] leaves in the dict [n], whatever the
    order in which it ranges over the operations [m] of a staged dict: a
    key with a [Put] has the value put, a key with a [Del] is gone, any
    other key is as it was. *)
Lemma commit_ops_lookup n (os : list (Key * StateOp)) : ∀ s u,
  Dicts s !! n = Some u →
  NoDup os.*1 →
  (∀ k o, (k, o) ∈ os → K o = k) →
  ∃ u', Dicts (foldl (λ s ko, commit_op n s ko.2) s os) !! n = Some u' ∧
        dictName u' = dictName u ∧
        ∀ k, Dict u' !! k =
             match (list_to_map os : gmap Key StateOp) !! k with
             | Some o => match T o with Put => Some (V o) | Del => None end
             | None => Dict u !! k
             end.
Proof.
  induction os as [|[k0 o0] os IH]; intros s u Hu Hnd Hkey; simpl.
  - exists u. split_and!; [done..|]. intros k. by rewrite lookup_empty.
  - apply NoDup_cons in Hnd as [Hk0 Hnd].
    assert (K o0 = k0) as HK by (apply Hkey; left).
    set (u1 := match T o0 with
               | Put => (inMemDict_Put u (K o0) (V o0)).1
               | Del => (inMemDict_Del u (K o0)).1
               end).
    assert (Dicts (commit_op n s o0) !! n = Some u1) as Hu1.
    { unfold commit_op, u1. rewrite Hu.
      destruct (T o0); simpl; by rewrite lookup_insert_eq. }
    destruct (IH _ _ Hu1 Hnd) as (u' & Hu' & Hname & Hlook).
    { intros k o Hin. apply Hkey. by right. }
    exists u'. split_and!; [done|by rewrite Hname; unfold u1; destruct (T o0)|].
    intros k. rewrite Hlook. destruct (decide (k0 = k)) as [<-|Hne].
    + rewrite lookup_insert_eq.
      rewrite (not_elem_of_list_to_map_1 _ _ Hk0).
      unfold u1. rewrite HK. destruct (T o0); simpl.
      * by rewrite lookup_insert_eq.
      * by rewrite lookup_delete_eq.
    + rewrite lookup_insert_ne by done.
      destruct (list_to_map os !! k); [done|].
      unfold u1. rewrite HK. destruct (T o0); simpl.
      * by rewrite lookup_insert_ne.
      * by rewrite lookup_delete_ne.
Qed.

Lemma commit_staged_dict n (m : gmap Key StateOp) order s u :
  Dicts s !! n = Some u →
  range_order m order →
  (∀ k o, m !! k = Some o → K o = k) →
  ∃ u', Dicts (foldl (λ s ko, commit_op n s ko.2) s order) !! n = Some u' ∧
        ∀ k, Dict u' !! k =
             match m !! k with
             | Some o => match T o with Put => Some (V o) | Del => None end
             | None => Dict u !! k
             end.
Proof.
  intros Hu Horder Hkey.
  destruct (commit_ops_lookup n order s u Hu) as (u' & Hu' & _ & Hlook).
  { by eapply range_order_NoDup_keys. }
  { intros k o Hin. apply Hkey. by apply (range_order_elem _ _ _ _ Horder). }
  exists u'. split; [done|]. intros k. rewrite Hlook.
  assert ((list_to_map order : gmap Key StateOp) = m) as ->; [|done].
  rewrite <-(list_to_map_to_list m).
  apply list_to_map_proper; [by eapply range_order_NoDup_keys|done].
Qed.

(** The stage outlives [AbortTx] too: on the sample state, the [Put]
    staged in a transaction that was aborted is written by the next
    [CommitTx]. *)
Lemma aborted_stage_committed_later :
  let s1 := (inMemoryState_BeginTx sample_state).1 in
  let s2 := (inMemoryState_Dict s1 "d").1 in
  let s3 := (Dict_Put s2 (StagedRef 0) "k" (bytes "v")).1 in
  let s4 := (inMemoryState_AbortTx s3).1 in
  let o := canonical_orders s4 in
  Dict <$> Dicts (inMemoryState_CommitTx o.1 o.2 s4).1 !! "d"
  = Some {[ "k" := bytes "v" ]}.
Proof. vm_compute. reflexivity. Qed.

(** The stage holds, for a dict, the staged dict that the last call of
    [Dict] returned: on the sample state, a [Put] staged on the staged
    dict of an earlier call of [Dict("d")] is not written by [CommitTx],
    and not seen by [Get] on the later staged dict. *)
Lemma superseded_staged_dict_dropped :
  let s1 := (inMemoryState_BeginTx sample_state).1 in
  let s2 := (inMemoryState_Dict s1 "d").1 in
  let s3 := (Dict_Put s2 (StagedRef 0) "k" (bytes "v")).1 in
  let s4 := (inMemoryState_Dict s3 "d").1 in
  let o := canonical_orders s4 in
  (inMemoryState_Dict s3 "d").2 = StagedRef 1
  ∧ Dict_Get s4 (StagedRef 1) "k"
    = (nilValue, Some (errors_New "Key does not exist."))
  ∧ Dict <$> Dicts (inMemoryState_CommitTx o.1 o.2 s4).1 !! "d" = Some ∅.
Proof. vm_compute. repeat split. Qed.

(** C1.  On the sample state: a transaction is begun, [Put("k", "v")] is
    staged on the dict "d", and [CommitTx] returns nil and has written the
    value to the dict.  The transaction of the state is the one it had
    before [CommitTx], with its stage, and [BeginTx] then returns the
    error of a transaction already started. *)
Theorem CommitTx_leaves_the_transaction_open :
  let s1 := (inMemoryState_BeginTx sample_state).1 in
  let s2 := (inMemoryState_Dict s1 "d").1 in
  let s3 := (Dict_Put s2 (StagedRef 0) "k" (bytes "v")).1 in
  let op := {| T := Put; D := "d"; K := "k"; V := bytes "v" |} in
  let r := inMemoryState_CommitTx [("d", 0)] (λ _, [("k", op)]) s3 in
  (stage <$> tx s3 = Some {[ "d" := 0 ]} ∧ ops <$> heap s3 !! 0 = Some {[ "k" := op ]})
  ∧ r.2 = None
  ∧ Dict <$> Dicts r.1 !! "d" = Some {[ "k" := bytes "v" ]}
  ∧ tx r.1 = tx s3 ∧ heap r.1 = heap s3
  ∧ inMemoryState_BeginTx r.1
    = (r.1, Some (errors_New "Transaction is already started")).
Proof. vm_compute. repeat split. Qed.
End commit_facts.

Section Tx_facts.
Import bh.
Implicit Types (s : inMemoryState) (so : list (DictName * ptr)).

Lemma Tx_count_loop s so : ∀ l,
  foldl (λ l np, match heap s !! np.2 with
                 | Some d => l + size (ops d)
                 | None => l
                 end) l so
  = l + sum_list (staged_count s <$> so).
Proof.
  induction so as [|np so IH]; intros l; csimpl; [lia|].
  rewrite IH. unfold staged_count. destruct (heap s !! np.2); lia.
Qed.

Lemma Tx_append_ops (os : list (Key * StateOp)) : ∀ acc : list StateOp,
  foldl (λ acc ko, acc ++ [ko.2]) acc os = acc ++ os.*2.
Proof.
  induction os as [|ko os IH]; intros acc; simpl; [by rewrite app_nil_r|].
  by rewrite IH, <-app_assoc.
Qed.

Lemma Tx_append_loop s ops_order so : ∀ acc : list StateOp,
  foldl (λ acc np, match heap s !! np.2 with
                   | Some d => foldl (λ acc ko, acc ++ [ko.2]) acc (ops_order np.2)
                   | None => acc
                   end) acc so
  = acc ++ concat (staged_ops s ops_order <$> so).
Proof.
  induction so as [|np so IH]; intros acc; simpl; [by rewrite app_nil_r|].
  rewrite IH. unfold staged_ops at 2.
  destruct (heap s !! np.2); [|done]. by rewrite Tx_append_ops, <-app_assoc.
Qed.

(** With a transaction open, [Tx] returns the staged operations after as
    many zero values as there are staged operations: the slice is made
    with that length, not with that capacity, and then appended to. *)
Lemma Tx_zero_values_first zeroT so1 so2 ops_order s t :
  tx s = Some t →
  range_order (stage t) so1 → range_order (stage t) so2 →
  (∀ p d, heap s !! p = Some d → range_order (ops d) (ops_order p)) →
  let staged := concat (staged_ops s ops_order <$> so2) in
  inMemoryState_Tx zeroT so1 so2 ops_order s
  = Some (replicate (length staged) (zero_StateOp zeroT) ++ staged).
Proof.
  intros Ht H1 H2 Hops staged. unfold inMemoryState_Tx. rewrite Ht.
  rewrite Tx_count_loop, Tx_append_loop. simpl. do 3 f_equal.
  subst staged. rewrite length_concat, <-list_fmap_compose.
  unfold range_order in H1, H2. rewrite H1, <-H2.
  f_equal. apply list_fmap_ext. intros i np _. simpl.
  unfold staged_count, staged_ops. destruct (heap s !! np.2) as [d|] eqn:Hd; [|done].
  rewrite length_fmap. symmetry. apply range_order_length. by eapply Hops.
Qed.

Lemma Tx_no_transaction zeroT so1 so2 ops_order s :
  tx s = None → inMemoryState_Tx zeroT so1 so2 ops_order s = None.
Proof. unfold inMemoryState_Tx. by intros ->. Qed.

(** C5.  On the sample state, with a transaction begun and [Put("k", "v")]
    staged on the dict "d", [Tx] returns two entries for the one staged
    operation: a zero value, then the operation. *)
Theorem Tx_returns_zero_values_first (zeroT : StateOpType) :
  let s1 := (inMemoryState_BeginTx sample_state).1 in
  let s2 := (inMemoryState_Dict s1 "d").1 in
  let s3 := (Dict_Put s2 (StagedRef 0) "k" (bytes "v")).1 in
  let op := {| T := Put; D := "d"; K := "k"; V := bytes "v" |} in
  (stage <$> tx s3 = Some {[ "d" := 0 ]} ∧ ops <$> heap s3 !! 0 = Some {[ "k" := op ]})
  ∧ inMemoryState_Tx zeroT [("d", 0)] [("d", 0)] (λ _, [("k", op)]) s3
    = Some [zero_StateOp zeroT; op].
Proof. vm_compute. repeat split. Qed.
End Tx_facts.

(** ** The in-memory state: staging leaves the underlying dicts alone *)

Section underlying_facts.
Import bh.
Implicit Types (s : inMemoryState) (n : DictName) (k : Key) (c : call).

Lemma same_underlying_refl s : same_underlying s s.
Proof. intros n. by left. Qed.

Lemma same_underlying_eq s s' : Dicts s' = Dicts s → same_underlying s s'.
Proof. intros Heq n. left. by rewrite Heq. Qed.

Lemma same_underlying_trans s1 s2 s3 :
  same_underlying s1 s2 → same_underlying s2 s3 → same_underlying s1 s3.
Proof.
  intros H12 H23 n. destruct (H12 n) as [E12|[E1 E2]], (H23 n) as [E23|[E2' E3]].
  - left. congruence.
  - right. split; congruence.
  - right. split; congruence.
  - congruence.
Qed.

Lemma same_underlying_Get s s' n k :
  same_underlying s s' → underlying_Get s' n k = underlying_Get s n k.
Proof.
  intros Hs. unfold underlying_Get. destruct (Hs n) as [->|[-> ->]]; [done|].
  unfold inMemDict_Get. simpl. by rewrite lookup_empty.
Qed.

Lemma inMemDict_made s n :
  ∃ u, Dicts (inMemoryState_inMemDict s n) !! n = Some u ∧
       ∀ k, inMemDict_Get u k = underlying_Get s n k.
Proof.
  unfold inMemoryState_inMemDict, underlying_Get.
  destruct (Dicts s !! n) as [u|] eqn:Hn.
  - exists u. by rewrite Hn.
  - eexists. simpl. rewrite lookup_insert_eq. split; [done|].
    intros k. unfold inMemDict_Get. simpl. by rewrite lookup_empty.
Qed.

Lemma inMemDict_same_underlying s n :
  same_underlying s (inMemoryState_inMemDict s n).
Proof.
  unfold inMemoryState_inMemDict. destruct (Dicts s !! n) as [u|] eqn:Hn.
  - apply same_underlying_refl.
  - intros n'. simpl. destruct (decide (n = n')) as [<-|Hne].
    + right. by rewrite lookup_insert_eq.
    + left. by rewrite lookup_insert_ne.
Qed.

Lemma Dict_same_underlying s n : same_underlying s (inMemoryState_Dict s n).1.
Proof.
  unfold inMemoryState_Dict. destruct (tx s); simpl;
    apply inMemDict_same_underlying.
Qed.

Lemma staged_Put_Dicts s p k v : Dicts (Dict_Put s (StagedRef p) k v).1 = Dicts s.
Proof.
  simpl. destruct (heap s !! p) as [d|]; [|done].
  by destruct (Dicts s !! dict d).
Qed.

Lemma staged_Del_Dicts s p k : Dicts (Dict_Del s (StagedRef p) k).1 = Dicts s.
Proof.
  simpl. destruct (heap s !! p) as [d|]; [|done].
  by destruct (Dicts s !! dict d).
Qed.

Lemma run_call_same_underlying s c : same_underlying s (run_call s c).
Proof.
  destruct c; simpl run_call.
  - apply Dict_same_underlying.
  - apply same_underlying_eq, staged_Put_Dicts.
  - apply same_underlying_eq, staged_Del_Dicts.
Qed.

Lemma run_calls_same_underlying cs : ∀ s, same_underlying s (run_calls cs s).
Proof.
  unfold run_calls. induction cs as [|c cs IH]; intros s; simpl.
  - apply same_underlying_refl.
  - eapply same_underlying_trans; [apply run_call_same_underlying|apply IH].
Qed.

Lemma BeginTx_Dicts s : Dicts (inMemoryState_BeginTx s).1 = Dicts s.
Proof. unfold inMemoryState_BeginTx. by destruct (tx s). Qed.

Lemma AbortTx_state s : (inMemoryState_AbortTx s).1 = s.
Proof. unfold inMemoryState_AbortTx. by destruct (tx s). Qed.

(** [s.Dict(n).Get(k)] reads the underlying dict, with or without a
    transaction: the staged dict [Dict] returns is a new one, with no
    operation. *)
Lemma Get_through_Dict_underlying s n k :
  Get_through_Dict s n k = underlying_Get s n k.
Proof.
  unfold Get_through_Dict, inMemoryState_Dict.
  destruct (inMemDict_made s n) as (u & Hu & Hget).
  destruct (tx s) as [t|]; simpl.
  - rewrite lookup_app_r by done. rewrite Nat.sub_diag. simpl.
    rewrite Hu. unfold inMemStagedDict_Get. simpl.
    by rewrite lookup_empty, Hget.
  - by rewrite Hu, Hget.
Qed.

(** C6.  Begin a transaction, let the handler make any calls of [Dict],
    [Put] and [Del] on staged dicts, and abort: [Dict(n).Get(k)] then
    returns what it returned before the transaction, for every dict and
    key, and the underlying dicts hold what they held (dicts made on
    demand are empty). *)
Theorem AbortTx_restores_Get s cs n k :
  let s1 := (inMemoryState_BeginTx s).1 in
  let s2 := run_calls cs s1 in
  let s3 := (inMemoryState_AbortTx s2).1 in
  Get_through_Dict s3 n k = Get_through_Dict s n k ∧ same_underlying s s3.
Proof.
  intros s1 s2 s3.
  assert (same_underlying s s3) as Hsame.
  { subst s3. rewrite AbortTx_state.
    eapply same_underlying_trans; [|apply run_calls_same_underlying].
    apply same_underlying_eq, BeginTx_Dicts. }
  split; [|done].
  rewrite !Get_through_Dict_underlying. by apply same_underlying_Get.
Qed.
End underlying_facts.

(** ** The in-memory state: what a staged dict shows *)

Section view_facts.
Import bh.
Implicit Types (s : inMemoryState) (n : DictName) (k : Key) (c : call) (p : ptr).

Lemma last_staged_snoc p k cs c :
  last_staged p k (cs ++ [c]) = staged_step p k (last_staged p k cs) c.
Proof. unfold last_staged. by rewrite foldl_app. Qed.

Lemma inMemDict_keeps s n n' :
  is_Some (Dicts s !! n) → is_Some (Dicts (inMemoryState_inMemDict s n') !! n).
Proof.
  intros Hn. unfold inMemoryState_inMemDict.
  destruct (Dicts s !! n') eqn:Hn'; [done|]. simpl.
  destruct (decide (n' = n)) as [->|Hne].
  - by rewrite lookup_insert_eq.
  - by rewrite lookup_insert_ne.
Qed.

Lemma inMemDict_heap s n : heap (inMemoryState_inMemDict s n) = heap s.
Proof. unfold inMemoryState_inMemDict. by destruct (Dicts s !! n). Qed.

Lemma view_fresh s n s1 p :
  inMemoryState_Dict s n = (s1, StagedRef p) → view_reflects s1 p n [].
Proof.
  unfold inMemoryState_Dict. destruct (tx s) as [t|]; [|done].
  simpl. intros [= <- <-]. eexists. split_and!.
  - simpl. rewrite lookup_app_r by done. by rewrite Nat.sub_diag.
  - done.
  - simpl. destruct (inMemDict_made s n) as (u & -> & _). eauto.
  - intros k. simpl. by rewrite lookup_empty.
  - intros k o. simpl. by rewrite lookup_empty.
Qed.

Lemma view_step s p n cs c :
  view_reflects s p n cs → view_reflects (run_call s c) p n (cs ++ [c]).
Proof.
  intros (d & Hp & Hd & Hn & Hops & Hkey).
  assert (p < length (heap s)) as Hlt by (by eapply lookup_lt_Some).
  destruct c as [n'|p' k' v|p' k']; simpl run_call.
  - (* Dict: a staged dict more, and maybe a dict more *)
    exists d. split_and!; [|done| |intros k; by rewrite last_staged_snoc|done].
    + unfold inMemoryState_Dict. destruct (tx s); simpl.
      * rewrite inMemDict_heap. by rewrite lookup_app_l.
      * by rewrite inMemDict_heap.
    + unfold inMemoryState_Dict. destruct (tx s); simpl; by apply inMemDict_keeps.
  - (* Put *)
    simpl. destruct (heap s !! p') as [d'|] eqn:Hp'.
    2:{ exists d. split_and!; [done..| |done]. intros k.
        rewrite last_staged_snoc. simpl. rewrite decide_False; [done|].
        intros [-> _]. congruence. }
    destruct (decide (p' = p)) as [->|Hne].
    + assert (d' = d) as -> by congruence. rewrite Hd.
      destruct Hn as [u Hu]. rewrite Hu. simpl.
      eexists. split_and!.
      * simpl. by apply list_lookup_insert_eq.
      * done.
      * simpl. eauto.
      * intros k. rewrite last_staged_snoc. simpl.
        destruct (decide (k' = k)) as [->|Hk].
        -- rewrite lookup_insert_eq. by rewrite decide_True.
        -- rewrite lookup_insert_ne by done. rewrite decide_False by tauto. done.
      * intros k o. simpl. destruct (decide (k' = k)) as [->|Hk].
        -- rewrite lookup_insert_eq. by intros [= <-].
        -- rewrite lookup_insert_ne by done. apply Hkey.
    + exists d. split_and!; [|done| | |done].
      * destruct (Dicts s !! dict d'); simpl; [|done].
        by rewrite list_lookup_insert_ne.
      * by destruct (Dicts s !! dict d').
      * intros k. rewrite last_staged_snoc. simpl.
        rewrite decide_False by tauto. done.
  - (* Del *)
    simpl. destruct (heap s !! p') as [d'|] eqn:Hp'.
    2:{ exists d. split_and!; [done..| |done]. intros k.
        rewrite last_staged_snoc. simpl. rewrite decide_False; [done|].
        intros [-> _]. congruence. }
    destruct (decide (p' = p)) as [->|Hne].
    + assert (d' = d) as -> by congruence. rewrite Hd.
      destruct Hn as [u Hu]. rewrite Hu. simpl.
      eexists. split_and!.
      * simpl. by apply list_lookup_insert_eq.
      * done.
      * simpl. eauto.
      * intros k. rewrite last_staged_snoc. simpl.
        destruct (decide (k' = k)) as [->|Hk].
        -- rewrite lookup_insert_eq. by rewrite decide_True.
        -- rewrite lookup_insert_ne by done. rewrite decide_False by tauto. done.
      * intros k o. simpl. destruct (decide (k' = k)) as [->|Hk].
        -- rewrite lookup_insert_eq. by intros [= <-].
        -- rewrite lookup_insert_ne by done. apply Hkey.
    + exists d. split_and!; [|done| | |done].
      * destruct (Dicts s !! dict d'); simpl; [|done].
        by rewrite list_lookup_insert_ne.
      * by destruct (Dicts s !! dict d').
      * intros k. rewrite last_staged_snoc. simpl.
        rewrite decide_False by tauto. done.
Qed.

Lemma view_run p n cs : ∀ s cs0,
  view_reflects s p n cs0 → view_reflects (run_calls cs s) p n (cs0 ++ cs).
Proof.
  unfold run_calls. induction cs as [|c cs IH]; intros s cs0 Hv; simpl.
  - by rewrite app_nil_r.
  - replace (cs0 ++ c :: cs) with ((cs0 ++ [c]) ++ cs) by by rewrite <-app_assoc.
    by apply IH, view_step.
Qed.
End view_facts.

Section staged_Get_facts.
Import bh.
Implicit Types (s : inMemoryState) (n : DictName) (k : Key) (p : ptr).

(** What one staged dict shows.  Let [Dict(n)] return a staged dict
    inside a transaction, and let the handler go on with any calls.
    [Get(k)] on that staged dict returns the value of the most recent
    operation staged on that very staged dict for [k] when that is a
    [Put], the error of a missing key when it is a [Del], and what
    [Get(k)] on the underlying dict returns when there is none.
    Operations staged on the staged dict of another call of [Dict(n)] do
    not count. *)
Lemma staged_Get_on_one_staged_dict s n s1 p cs k :
  inMemoryState_Dict s n = (s1, StagedRef p) →
  let s2 := run_calls cs s1 in
  Dict_Get s2 (StagedRef p) k =
    match last_staged p k cs with
    | Some (Put, v) => (v, None)
    | Some (Del, _) => (nilValue, Some (errors_New "No such key"))
    | None => Dict_Get s2 (DirectRef n) k
    end.
Proof.
  intros Hd s2.
  destruct (view_run p n cs s1 [] (view_fresh _ _ _ _ Hd))
    as (d & Hp & Hn & [u Hu] & Hops & _).
  fold s2 in Hp, Hu. simpl in Hops. simpl. rewrite Hp, Hn, Hu.
  unfold inMemStagedDict_Get. rewrite <-(Hops k).
  destruct (ops d !! k) as [o|]; simpl; [|done]. by destruct (T o).
Qed.

Lemma staged_Get_on_one_staged_dict_sample :
  let s1 := (inMemoryState_BeginTx sample_state).1 in
  let s2 := (inMemoryState_Dict s1 "d").1 in
  let cs := [call_Put 0 "a" (bytes "1"); call_Del 0 "a"; call_Put 0 "b" (bytes "2")] in
  Dict_Get (run_calls cs s2) (StagedRef 0) "a"
    = (nilValue, Some (errors_New "No such key")) ∧
  Dict_Get (run_calls cs s2) (StagedRef 0) "b" = (bytes "2", None) ∧
  Dict_Get (run_calls cs s2) (StagedRef 0) "c"
    = Dict_Get (run_calls cs s2) (DirectRef "d") "c".
Proof.
  intros s1 s2 cs. split_and!.
  - apply (staged_Get_on_one_staged_dict s1 "d" s2 0 cs "a"). reflexivity.
  - apply (staged_Get_on_one_staged_dict s1 "d" s2 0 cs "b"). reflexivity.
  - apply (staged_Get_on_one_staged_dict s1 "d" s2 0 cs "c"). reflexivity.
Defined.

(** Inside a transaction [Dict(n).Get(k)] never shows what was staged:
    whatever the handler staged before, on any staged dict, the staged
    dict that this call of [Dict] returns has no operation, and [Get]
    returns what the underlying dict has, which no staged call has
    written. *)
Lemma Get_through_Dict_ignores_the_stage s cs n k :
  let s1 := (inMemoryState_BeginTx s).1 in
  Get_through_Dict (run_calls cs s1) n k = Get_through_Dict s n k.
Proof.
  intros s1. rewrite !Get_through_Dict_underlying.
  apply same_underlying_Get.
  eapply same_underlying_trans; [|apply run_calls_same_underlying].
  apply same_underlying_eq, BeginTx_Dicts.
Qed.

(** C7.  On the sample state, with a transaction begun, [Put("k", "v")] is
    staged on the dict "d": the operation is in the stage, and it is the
    most recent one staged for "k".  [Dict("d").Get("k")] then returns
    the error of a missing key and not "v": this call of [Dict("d")] has
    made a second staged dict, without operations, and has put it in the
    stage in the place of the first.  Only the staged dict of the first
    call still returns "v". *)
Theorem staged_Put_not_seen_by_Get_through_Dict :
  let s1 := (inMemoryState_BeginTx sample_state).1 in
  let d1 := inMemoryState_Dict s1 "d" in
  let s3 := (Dict_Put d1.1 d1.2 "k" (bytes "v")).1 in
  let d2 := inMemoryState_Dict s3 "d" in
  let op := {| T := Put; D := "d"; K := "k"; V := bytes "v" |} in
  (d1.2 = StagedRef 0 ∧ stage <$> tx s3 = Some {[ "d" := 0 ]} ∧
   ops <$> heap s3 !! 0 = Some {[ "k" := op ]})
  ∧ (d2.2 = StagedRef 1 ∧ stage <$> tx d2.1 = Some {[ "d" := 1 ]} ∧
     ops <$> heap d2.1 !! 1 = Some ∅)
  ∧ Dict_Get d2.1 d2.2 "k" = (nilValue, Some (errors_New "Key does not exist."))
  ∧ Get_through_Dict s3 "d" "k"
    = (nilValue, Some (errors_New "Key does not exist."))
  ∧ Dict_Get d2.1 d1.2 "k" = (bytes "v", None).
Proof. vm_compute. repeat split. Qed.
End staged_Get_facts.

Section ForEach_facts.
Import bh.
Implicit Types (s : inMemoryState) (n : DictName) (k : Key) (p : ptr)
  (d : inMemStagedDict) (order : list (Key * Value)).

Lemma staged_ForEach_visits d order : ∀ acc,
  inMemStagedDict_ForEach order d (λ k v acc, acc ++ [(k, v)]) acc
  = acc ++ (order ≫= staged_visit d).
Proof.
  unfold inMemStagedDict_ForEach, inMemDict_ForEach.
  induction order as [|kv order IH]; intros acc; simpl.
  - by rewrite app_nil_r.
  - rewrite IH. unfold staged_visit at 2.
    destruct (ops d !! kv.1) as [op|]; [destruct (T op)|]; simpl.
    + by rewrite <-app_assoc.
    + done.
    + rewrite <-app_assoc. by destruct kv.
Qed.

Lemma staged_visit_keys d order :
  (∀ k o, ops d !! k = Some o → K o = k) →
  (order ≫= staged_visit d).*1 `sublist_of` order.*1.
Proof.
  intros Hkey. induction order as [|kv order IH]; simpl; [done|].
  rewrite fmap_app. unfold staged_visit at 1.
  destruct (ops d !! kv.1) as [op|] eqn:Hop; [destruct (T op)|]; simpl.
  - rewrite (Hkey _ _ Hop). by apply sublist_skip.
  - by apply sublist_cons.
  - by apply sublist_skip.
Qed.

Lemma staged_visit_elem d order k v :
  (∀ k o, ops d !! k = Some o → K o = k) →
  (k, v) ∈ order ≫= staged_visit d ↔
  ∃ v0, (k, v0) ∈ order ∧
        match ops d !! k with
        | Some op => T op = Put ∧ v = V op
        | None => v = v0
        end.
Proof.
  intros Hkey. rewrite list_elem_of_bind. split.
  - intros ([k0 v0] & Hin & Hord). unfold staged_visit in Hin. simpl in Hin.
    destruct (ops d !! k0) as [op|] eqn:Hop.
    + destruct (T op) eqn:HT; [|by apply elem_of_nil in Hin].
      apply list_elem_of_singleton in Hin. injection Hin as -> ->.
      rewrite (Hkey _ _ Hop) in *. exists v0. by rewrite Hop.
    + apply list_elem_of_singleton in Hin. injection Hin as -> ->.
      exists v0. by rewrite Hop.
  - intros (v0 & Hord & Hm). exists (k, v0). split; [|done].
    unfold staged_visit. simpl. destruct (ops d !! k) as [op|] eqn:Hop.
    + destruct Hm as [-> ->]. rewrite (Hkey _ _ Hop). apply list_elem_of_singleton. done.
    + subst. by apply list_elem_of_singleton.
Qed.

(** What [ForEach] on one staged dict visits.  Let [Dict(n)] return a
    staged dict inside a transaction, and let the handler go on with any
    calls.  [ForEach] on that staged dict visits no key twice, and visits
    [k] with [v] exactly when the underlying dict has [k] and the most
    recent operation staged on that very staged dict for [k] is a [Put]
    of [v], or there is none and the underlying dict has [v] for [k].  A
    key of a staged [Put] that the underlying dict has not is not
    visited. *)
Lemma staged_ForEach_on_one_staged_dict s n s1 p cs u order :
  inMemoryState_Dict s n = (s1, StagedRef p) →
  let s2 := run_calls cs s1 in
  Dicts s2 !! n = Some u →
  range_order (Dict u) order →
  let vis := ForEach_visits s2 (StagedRef p) order in
  NoDup vis.*1 ∧
  ∀ k v, (k, v) ∈ vis ↔
         is_Some (Dict u !! k) ∧
         match last_staged p k cs with
         | Some (Put, v') => v = v'
         | Some (Del, _) => False
         | None => Dict u !! k = Some v
         end.
Proof.
  intros Hd s2 Hu Horder vis.
  destruct (view_run p n cs s1 [] (view_fresh _ _ _ _ Hd))
    as (d & Hp & Hn & _ & Hops & Hkey).
  fold s2 in Hp. simpl in Hops.
  assert (vis = order ≫= staged_visit d) as ->.
  { subst vis. unfold ForEach_visits. simpl. rewrite Hp.
    by rewrite staged_ForEach_visits. }
  split.
  - eapply sublist_NoDup; [|by apply staged_visit_keys].
    by eapply range_order_NoDup_keys.
  - intros k v. rewrite staged_visit_elem by done.
    rewrite <-(Hops k). split.
    + intros (v0 & Hin & Hm). apply (range_order_elem _ _ _ _ Horder) in Hin.
      split; [eauto|]. destruct (ops d !! k) as [o|]; simpl.
      * destruct Hm as [-> ->]. done.
      * by subst.
    + intros [[v0 Hv0] Hm]. exists v0. split.
      { by apply (range_order_elem _ _ _ _ Horder). }
      destruct (ops d !! k) as [o|]; simpl in Hm.
      * destruct (T o); [done|by destruct Hm].
      * congruence.
Qed.

Lemma staged_ForEach_on_one_staged_dict_sample :
  let s0 := (Dict_Put (inMemoryState_Dict sample_state "d").1 (DirectRef "d")
               "a" (bytes "1")).1 in
  let s1 := (inMemoryState_BeginTx s0).1 in
  let s2 := (inMemoryState_Dict s1 "d").1 in
  let cs := [call_Put 0 "a" (bytes "2"); call_Put 0 "b" (bytes "3")] in
  let u := {| dictName := "d"; Dict := {[ "a" := bytes "1" ]} |} in
  let vis := ForEach_visits (run_calls cs s2) (StagedRef 0) [("a", bytes "1")] in
  vis = [("a", bytes "2")] ∧
  NoDup vis.*1 ∧
  ∀ k v, (k, v) ∈ vis ↔
         is_Some (Dict u !! k) ∧
         match last_staged 0 k cs with
         | Some (Put, v') => v = v'
         | Some (Del, _) => False
         | None => Dict u !! k = Some v
         end.
Proof.
  intros s0 s1 s2 cs u vis. split; [reflexivity|].
  apply (staged_ForEach_on_one_staged_dict s1 "d" s2 0 cs u
           [("a", bytes "1")]).
  - reflexivity.
  - reflexivity.
  - unfold range_order. simpl. by rewrite map_to_list_singleton.
Defined.

(** The keys of the design document are not the keys visited.  On the
    sample state, with a transaction begun and [Put("k", "v")] staged on
    the dict "d", which is empty: the key "k" is a staged-put key, and
    [ForEach] visits nothing. *)
Lemma staged_ForEach_misses_staged_only_key :
  ¬ (let s1 := (inMemoryState_BeginTx sample_state).1 in
     let s2 := (inMemoryState_Dict s1 "d").1 in
     let cs := [call_Put 0 "k" (bytes "v")] in
     let u := {| dictName := "d"; Dict := ∅ |} in
     Dicts (run_calls cs s2) !! "d" = Some u →
     range_order (Dict u) [] →
     ∀ k, k ∈ (ForEach_visits (run_calls cs s2) (StagedRef 0) []).*1
          ↔ spec_ForEach_key u 0 cs k).
Proof.
  intros Hclaim.
  assert ("k" ∈ @nil Key) as Hin; [|by apply elem_of_nil in Hin].
  apply (Hclaim eq_refl).
  - unfold range_order. simpl. by rewrite map_to_list_empty.
  - right. reflexivity.
Qed.

(** A [Del] staged through one call of [Dict] is not seen by [ForEach]
    through the next.  On the sample state the dict "d" has "a"; in a
    transaction [Dict("d").Del("a")] is staged; [ForEach] on the staged
    dict of a second [Dict("d")] visits "a", and [ForEach] on the first
    does not. *)
Lemma staged_Del_not_seen_by_ForEach_through_Dict :
  let s0 := (Dict_Put (inMemoryState_Dict sample_state "d").1 (DirectRef "d")
               "a" (bytes "1")).1 in
  let s1 := (inMemoryState_BeginTx s0).1 in
  let d1 := inMemoryState_Dict s1 "d" in
  let s3 := (Dict_Del d1.1 d1.2 "a").1 in
  let d2 := inMemoryState_Dict s3 "d" in
  Dict <$> Dicts d2.1 !! "d" = Some {[ "a" := bytes "1" ]}
  ∧ ForEach_visits d2.1 d2.2 [("a", bytes "1")] = [("a", bytes "1")]
  ∧ ForEach_visits d2.1 d1.2 [("a", bytes "1")] = [].
Proof. vm_compute. repeat split. Qed.

(** C2.  On the sample state, with a transaction begun, [Put("k", "v")] is
    staged on the staged dict that [Dict("d")] returned; the dict "d" is
    empty.  The key "k" is a staged-put key, and [Get("k")] on the staged
    dict returns "v"; [ForEach] on the same staged dict visits nothing,
    in the one order there is for an empty dict. *)
Theorem staged_ForEach_skips_staged_Put :
  let s1 := (inMemoryState_BeginTx sample_state).1 in
  let d := inMemoryState_Dict s1 "d" in
  let s3 := (Dict_Put d.1 d.2 "k" (bytes "v")).1 in
  let op := {| T := Put; D := "d"; K := "k"; V := bytes "v" |} in
  (d.2 = StagedRef 0 ∧ stage <$> tx s3 = Some {[ "d" := 0 ]} ∧
   ops <$> heap s3 !! 0 = Some {[ "k" := op ]})
  ∧ Dict <$> Dicts s3 !! "d" = Some ∅
  ∧ Dict_Get s3 d.2 "k" = (bytes "v", None)
  ∧ (∀ order, range_order (∅ : gmap Key Value) order ↔ order = [])
  ∧ ForEach_visits s3 d.2 [] = [].
Proof.
  split_and!; [by vm_compute..| |by vm_compute].
  intros order. unfold range_order. rewrite map_to_list_empty. split.
  - apply Permutation_nil_r.
  - by intros ->.
Qed.
End ForEach_facts.

(** ** Handling a message *)

Section handleMsg_facts.
Import bh.
Context {C Msg : Type} {RC : RcvContext C}.
Implicit Types (bee : localBee C) (mh : msgAndHandler (C := C) (Msg := Msg))
  (c : C) (e : rcv_end).

(** [handleMsg] by the way the handler ends. *)
Lemma handleMsg_cases bee mh c e :
  handler mh (msg mh) (ctx_at_Rcv bee) = (c, e) →
  let r := handleMsg bee mh in
  match e with
  | rcv_returns None =>
      ctx (the_bee r) = rcvContext_CommitTx c ∧
      calls r = calls_before_Rcv bee ++ [called_Rcv; called_CommitTx; called_collect] ∧
      errlog r = []
  | rcv_returns (Some _) =>
      ctx (the_bee r) = rcvContext_AbortTx c ∧
      calls r = calls_before_Rcv bee ++ [called_Rcv; called_AbortTx] ∧
      errlog r = [glog_Errorf "Error in %s: %v"]
  | rcv_panics _ =>
      ctx (the_bee r) = rcvContext_AbortTx c ∧
      calls r = calls_before_Rcv bee ++ [called_Rcv; called_AbortTx] ∧
      errlog r = [glog_Errorf "Error in %s: %v"; glog_Errorf "%s"]
  end.
Proof.
  unfold ctx_at_Rcv, calls_before_Rcv, handleMsg. intros Hh.
  destruct (app_Transactional (ctx bee)); simpl in *; rewrite Hh;
    destruct e as [[err|]|r]; simpl; by rewrite <-?app_assoc.
Qed.

Lemma calls_before_Rcv_elem bee x :
  x ∈ calls_before_Rcv bee → x = called_BeginTx.
Proof.
  unfold calls_before_Rcv. destruct (app_Transactional (ctx bee)).
  - by intros ->%list_elem_of_singleton.
  - by intros ?%elem_of_nil.
Qed.

(** C9.  A transactional bee handles a message; [c] is the context as the
    handler leaves it and [e] the way the handler ends.  [CommitTx] is
    called if and only if the handler returns nil.  When the handler
    returns an error or panics, [AbortTx] is called, [CommitTx] is not,
    and the context of the bee is [c] after [AbortTx]: nothing that the
    handler staged is applied. *)
Theorem handleMsg_commits_only_on_success bee mh c e :
  app_Transactional (ctx bee) = true →
  handler mh (msg mh) (rcvContext_BeginTx (ctx bee)) = (c, e) →
  let r := handleMsg bee mh in
  (called_CommitTx ∈ calls r ↔ e = rcv_returns None) ∧
  (e ≠ rcv_returns None →
   called_AbortTx ∈ calls r ∧ (called_CommitTx ∉ calls r) ∧
   ctx (the_bee r) = rcvContext_AbortTx c).
Proof.
  intros Htx Hh r.
  assert (ctx_at_Rcv bee = rcvContext_BeginTx (ctx bee)) as Hat
    by (unfold ctx_at_Rcv; by rewrite Htx).
  rewrite <-Hat in Hh. pose proof (handleMsg_cases bee mh c e Hh) as Hc.
  fold r in Hc.
  assert (∀ x l, x ≠ called_BeginTx → x ∉ l → x ∉ calls_before_Rcv bee ++ l)
    as Hnot.
  { intros x l Hx Hl [Hin%calls_before_Rcv_elem|Hin]%elem_of_app; done. }
  assert (∀ x (l : list ctx_call), x ∈ l → x ∈ calls_before_Rcv bee ++ l) as Hin.
  { intros x l Hl. apply elem_of_app. by right. }
  destruct e as [[err|]|v]; destruct Hc as (Hctx & -> & _).
  - split; [split; [|done]|intros _; split_and!; [| |done]].
    + intros Hc. exfalso. revert Hc. apply Hnot; [done|list_has_not].
    + apply Hin. list_has.
    + apply Hnot; [done|list_has_not].
  - split; [|done]. split; [done|]. intros _.
    apply Hin. list_has.
  - split; [split; [|done]|intros _; split_and!; [| |done]].
    + intros Hc. exfalso. revert Hc. apply Hnot; [done|list_has_not].
    + apply Hin. list_has.
    + apply Hnot; [done|list_has_not].
Qed.
End handleMsg_facts.

Section handleMsg_sample.
Import bh.

Lemma handleMsg_commits_only_on_success_witness :
  let RC := inMem_RcvContext canonical_orders in
  let e := rcv_returns (Some (errors_New "handler failed")) in
  let cs := [call_Dict "d"; call_Put 0 "k" (bytes "v")] in
  let mh := {| msg := tt; handler := staging_handler cs e |} in
  let c := (handler mh tt (rcvContext_BeginTx (ctx sample_ctx_bee))).1 in
  let r := handleMsg sample_ctx_bee mh in
  called_AbortTx ∈ calls r ∧ (called_CommitTx ∉ calls r) ∧
  ctx (the_bee r) = rcvContext_AbortTx c.
Proof.
  intros RC e cs mh c r.
  refine (proj2 (handleMsg_commits_only_on_success sample_ctx_bee mh c e _ _) _).
  - reflexivity.
  - reflexivity.
  - discriminate.
Defined.
End handleMsg_sample.

Section handleMsg_inMem.
Import bh.
Variable commit_orders :
  inMemoryState → list (DictName * ptr) * (ptr → list (Key * StateOp)).
Implicit Types (bee : localBee rcvContext) (e : rcv_end).

#[local] Instance commit_orders_RcvContext : RcvContext rcvContext :=
  inMem_RcvContext commit_orders.

(** With the in-memory state behind the context: a handler that stages
    operations and then returns an error or panics leaves every underlying
    dict as it was before the message. *)
Lemma handleMsg_error_keeps_underlying {Msg : Type} bee (m : Msg) cs e :
  e ≠ rcv_returns None →
  let r := handleMsg bee {| msg := m; handler := staging_handler cs e |} in
  same_underlying (state (ctx bee)) (state (ctx (the_bee r))).
Proof.
  intros He r.
  pose proof (handleMsg_cases bee
                {| msg := m; handler := staging_handler cs e |} _ e eq_refl) as Hc.
  fold r in Hc.
  assert (ctx (the_bee r)
          = rcvContext_AbortTx
              (set_state (run_calls cs (state (ctx_at_Rcv bee))) (ctx_at_Rcv bee)))
    as -> by (destruct e as [[?|]|?]; [apply Hc|done|apply Hc]).
  simpl. rewrite AbortTx_state.
  eapply same_underlying_trans; [|apply run_calls_same_underlying].
  unfold ctx_at_Rcv. simpl. destruct (transactional (ctx bee)); simpl.
  - apply same_underlying_eq, BeginTx_Dicts.
  - apply same_underlying_refl.
Qed.
End handleMsg_inMem.

(** * Further properties *)

(** ** The colony *)

Section colony_facts.
Import bh.
Implicit Types (c : BeeColony) (id : BeeID).

(** X1.  [AddSlave] answers true exactly for a bee that is not yet a slave;
    either way the bee is a slave afterwards, the slaves there were are
    still there, in their order, and a list without duplicates stays
    so. *)
Theorem AddSlave_keeps_slaves_distinct c id :
  let r := BeeColony_AddSlave c id in
  (r.2 = true ↔ id ∉ Slaves c) ∧
  Master r.1 = Master c ∧
  Slaves c `prefix_of` Slaves r.1 ∧
  (∀ x, x ∈ Slaves r.1 ↔ x ∈ Slaves c ∨ x = id) ∧
  (NoDup (Slaves c) → NoDup (Slaves r.1)).
Proof.
  intros r. subst r. destruct (decide (id ∈ Slaves c)) as [Hin|Hin].
  - rewrite AddSlave_known by done. simpl. split_and!; [|done|done| |done].
    + split; [done|]. by intros ?.
    + intros x. split; [auto|]. by intros [?| ->].
  - rewrite AddSlave_new by done. simpl. split_and!; [done|done| | |].
    + by apply prefix_app_r.
    + intros x. rewrite elem_of_app, list_elem_of_singleton. done.
    + intros Hnd. apply NoDup_app. split_and!; [done| |apply NoDup_singleton].
      intros x Hx ->%list_elem_of_singleton. done.
Qed.

(** X2.  [DelSlave] answers true exactly for a slave, and then takes out its
    first occurrence and nothing else: the slaves are [l1 ++ id :: l2]
    with [id] not in [l1], and [l1 ++ l2] afterwards.  For a bee that is
    no slave the colony is left as it is.  So the other slaves keep their
    order, and in a list without duplicates the bee is no slave
    afterwards. *)
Theorem DelSlave_removes_first_occurrence c id :
  let r := BeeColony_DelSlave c id in
  (r.2 = true ↔ id ∈ Slaves c) ∧
  (if r.2
   then ∃ l1 l2, Slaves c = l1 ++ id :: l2 ∧ (id ∉ l1) ∧ Slaves r.1 = l1 ++ l2
   else r.1 = c) ∧
  Master r.1 = Master c ∧
  Slaves r.1 `sublist_of` Slaves c ∧
  length (Slaves r.1) = length (Slaves c) - (if r.2 then 1 else 0) ∧
  (∀ x, x ≠ id → x ∈ Slaves r.1 ↔ x ∈ Slaves c) ∧
  (NoDup (Slaves c) → NoDup (Slaves r.1) ∧ id ∉ Slaves r.1).
Proof.
  intros r. subst r. destruct (decide (id ∈ Slaves c)) as [Hin|Hin].
  - destruct (DelSlave_known c id Hin) as (l1 & l2 & Hs & Hn1 & ->). simpl.
    rewrite Hs. split_and!; [| |done| | | |].
    + split; [|done]. intros _. apply elem_of_app. right. by left.
    + by exists l1, l2.
    + apply sublist_app; [done|]. by apply sublist_cons.
    + rewrite !length_app. simpl. lia.
    + intros x Hx. rewrite !elem_of_app, elem_of_cons.
      split; [intros [?|?]; auto|intros [?|[?|?]]; [auto|done|auto]].
    + intros Hnd. apply NoDup_app in Hnd as (Hnd1 & Hdis & Hnd2).
      apply NoDup_cons in Hnd2 as [Hn2 Hnd2]. split.
      * apply NoDup_app. split_and!; [done| |done].
        intros x Hx1 Hx2. apply (Hdis x Hx1). by right.
      * rewrite elem_of_app. by intros [?|?].
  - rewrite DelSlave_unknown by done. simpl.
    split_and!; [|done|done|done|lia|done|done].
    split; [done|]. by intros ?.
Qed.

(** X3.  Adding a bee that is no slave and deleting it again gives the colony
    back. *)
Theorem AddSlave_DelSlave_round_trip c id :
  id ∉ Slaves c →
  BeeColony_DelSlave (BeeColony_AddSlave c id).1 id = (c, true).
Proof.
  intros Hin. rewrite AddSlave_new by done. simpl.
  destruct (DelSlave_known {| Master := Master c; Slaves := Slaves c ++ [id] |} id)
    as (l1 & l2 & Hs & Hn1 & ->).
  { simpl. apply elem_of_app. right. by left. }
  simpl in *. f_equal.
  assert (l2 = [] ∧ l1 = Slaves c) as [-> ->].
  { destruct (decide (l2 = [])) as [->|Hl2].
    - split; [done|]. by apply app_inj_tail in Hs as [-> _].
    - exfalso. destruct (exists_last Hl2) as (l2' & x & ->).
      replace (l1 ++ id :: l2' ++ [x]) with ((l1 ++ id :: l2') ++ [x]) in Hs
        by (by rewrite <-app_assoc).
      apply app_inj_tail in Hs as [Hs ->].
      apply Hin. rewrite Hs. rewrite elem_of_app. right. by left. }
  rewrite app_nil_r. by destruct c.
Qed.

Lemma AddSlave_DelSlave_round_trip_witness :
  BeeColony_DelSlave
    (BeeColony_AddSlave {| Master := sample_master; Slaves := [sample_slave] |}
       sample_stranger).1 sample_stranger
  = ({| Master := sample_master; Slaves := [sample_slave] |}, true).
Proof.
  apply (AddSlave_DelSlave_round_trip
           {| Master := sample_master; Slaves := [sample_slave] |} sample_stranger).
  simpl. intros [?|?%elem_of_nil]%elem_of_cons; [discriminate|done].
Defined.
End colony_facts.

Section colony_Eq_facts.
Import bh.
Implicit Types (c : BeeColony) (b : BeeID) (slaves : gmap BeeID bool).

Lemma Eq_first_loop (l : list BeeID) : ∀ slaves b,
  is_Some (foldl (λ m b, <[b := true]> m) slaves l !! b)
  ↔ b ∈ l ∨ is_Some (slaves !! b).
Proof.
  induction l as [|x l IH]; intros slaves b; simpl.
  - split; [auto|]. by intros [?%elem_of_nil|?].
  - rewrite IH, elem_of_cons. destruct (decide (x = b)) as [->|Hne].
    + rewrite lookup_insert_eq. split; [auto|]. intros _. right. eauto.
    + rewrite lookup_insert_ne by done.
      split; [intros [?|?]; auto|intros [[?|?]|?]; [by subst|auto|auto]].
Qed.

Lemma Eq_loop_true slaves (l : list BeeID) :
  Eq_loop slaves l = true ↔ ∀ b, b ∈ l → is_Some (slaves !! b).
Proof.
  induction l as [|x l IH]; simpl.
  - split; [|done]. by intros _ b ?%elem_of_nil.
  - destruct (slaves !! x) as [v|] eqn:Hx.
    + rewrite IH. split.
      * intros Hall b [->|?]%elem_of_cons; [by rewrite Hx|by apply Hall].
      * intros Hall b ?. apply Hall. by right.
    + split; [done|]. intros Hall. destruct (Hall x) as [? Hs]; [by left|].
      congruence.
Qed.

(** X4.  [c.Eq(thatC)] is true exactly when the masters are equal, the slave
    lists have the same length and every slave of [thatC] is a slave of
    [c].  When the slaves of [thatC] have no duplicates, that is: the
    masters are equal and the slave lists are equal up to their order. *)
Theorem BeeColony_Eq_same_master_same_slaves c thatC :
  (BeeColony_Eq c thatC = true ↔
   Master c = Master thatC ∧
   length (Slaves c) = length (Slaves thatC) ∧
   ∀ b, b ∈ Slaves thatC → b ∈ Slaves c)
  ∧
  (NoDup (Slaves thatC) →
   (BeeColony_Eq c thatC = true ↔
    Master c = Master thatC ∧ Slaves c ≡ₚ Slaves thatC)).
Proof.
  assert (BeeColony_Eq c thatC = true ↔
          Master c = Master thatC ∧
          length (Slaves c) = length (Slaves thatC) ∧
          ∀ b, b ∈ Slaves thatC → b ∈ Slaves c) as Hspec.
  { unfold BeeColony_Eq.
    destruct (decide (Master c ≠ Master thatC)) as [Hm|Hm].
    { split; [done|]. by intros [? _]. }
    apply dec_stable in Hm.
    destruct (decide (length (Slaves c) ≠ length (Slaves thatC))) as [Hl|Hl].
    { split; [done|]. by intros (_ & ? & _). }
    apply dec_stable in Hl.
    destruct (decide (length (Slaves c) = 0 ∧ length (Slaves thatC) = 0))
      as [[_ H0]|_].
    { split; [|done]. intros _. split_and!; [done..|].
      apply nil_length_inv in H0. rewrite H0. by intros b ?%elem_of_nil. }
    simpl. rewrite Eq_loop_true. split.
    - intros Hall. split_and!; [done..|]. intros b Hb.
      apply Hall, Eq_first_loop in Hb as [?|[? Hb]]; [done|].
      by rewrite lookup_empty in Hb.
    - intros (_ & _ & Hall) b Hb. apply Eq_first_loop. left. by apply Hall. }
  split; [done|]. intros Hnd. rewrite Hspec. split.
  - intros (Hm & Hl & Hsub). split; [done|]. symmetry.
    apply submseteq_length_Permutation; [by apply NoDup_submseteq|lia].
  - intros [Hm Hp]. split_and!; [done|by rewrite Hp|].
    intros b. by rewrite Hp.
Qed.
End colony_Eq_facts.

(** ** More on the control commands *)

Section handleCmd_more.
Import bh.
Context {C : Type}.
Implicit Types (bee : localBee C) (cmd : LocalCmd).

Ltac handleCmd_cases H :=
  unfold handleCmd, send, assert_addSlaveCmdData, assert_delSlaveCmdData,
    assert_BeeID, assert_Tx, assert_TxSeq in H;
  repeat (simpl in H;
          match type of H with
          | context [match ?x with _ => _ end] => destruct x eqn:?
          end);
  simpl in H; try discriminate H.

(** X5.  A command that [handleCmd] gets through tells the bee to stop exactly
    when it is the stop command.  With a result channel exactly one result
    is sent, on that channel; without one nothing is sent, and the command
    is one the bee does not know, which leaves the bee as it was: any other
    command without a result channel is never got through. *)
Theorem handleCmd_replies_once bee cmd bee' results continue :
  handleCmd bee cmd = Returns ((bee', results), continue) →
  (continue = false ↔ CmdType_of cmd = stopCmd) ∧
  match ResCh cmd with
  | Some ch => ∃ r, results = [(ch, r)]
  | None => results = [] ∧ bee' = bee ∧ ∃ n, CmdType_of cmd = otherCmd n
  end.
Proof.
  intros H. destruct cmd as [t d ch]. simpl.
  handleCmd_cases H; injection H as <- <- <-; (split; [done|]); eauto.
Qed.

(** X6.  What a command that [handleCmd] gets through leaves alone: the context
    and the master always; the slaves unless it adds or deletes a slave;
    the buffered transactions unless it buffers one, and that one goes to
    the end of the buffer. *)
Theorem handleCmd_frame bee cmd bee' results continue :
  handleCmd bee cmd = Returns ((bee', results), continue) →
  ctx bee' = ctx bee ∧
  Master (beeColony bee') = Master (beeColony bee) ∧
  (CmdType_of cmd ≠ addSlaveCmd → CmdType_of cmd ≠ delSlaveCmd →
   beeColony bee' = beeColony bee) ∧
  match CmdType_of cmd with
  | bufferTxCmd => ∃ tx, CmdData cmd = any_Tx tx ∧ txBuf bee' = txBuf bee ++ [tx]
  | _ => txBuf bee' = txBuf bee
  end.
Proof.
  intros H. destruct cmd as [t d ch]. simpl.
  assert (∀ id, Master (BeeColony_AddSlave (beeColony bee) id).1
                = Master (beeColony bee)) as Hadd.
  { intros id. unfold BeeColony_AddSlave. by destruct (AddSlave_loop _ _). }
  assert (∀ id, Master (BeeColony_DelSlave (beeColony bee) id).1
                = Master (beeColony bee)) as Hdel.
  { intros id. unfold BeeColony_DelSlave. by destruct (DelSlave_loop _ _ _ _). }
  handleCmd_cases H; injection H as <- <- <-; simpl;
    split_and!; try done; eauto;
    match goal with
    | E : BeeColony_AddSlave _ ?id = (?c, _) |- Master ?c = _ =>
        by rewrite <-(Hadd id), E
    | E : BeeColony_DelSlave _ ?id = (?c, _) |- Master ?c = _ =>
        by rewrite <-(Hdel id), E
    end.
Qed.

End handleCmd_more.

Section handleCmd_more_samples.
Import bh.

Lemma handleCmd_replies_once_witness :
  (true = false ↔ listSlavesCmd = stopCmd) ∧
  ∃ r, [(7, {| Data := any_Slaves [sample_slave]; Err := None |})] = [(7, r)].
Proof.
  apply (handleCmd_replies_once sample_bee
           {| CmdType_of := listSlavesCmd; CmdData := any_nil; ResCh := Some 7 |}
           sample_bee
           [(7, {| Data := any_Slaves [sample_slave]; Err := None |})] true).
  reflexivity.
Defined.

Lemma handleCmd_frame_witness :
  let bee' :=
    {| ctx := tt; beeColony := beeColony sample_bee;
       txBuf := [sample_tx; sample_tx] |} in
  ctx bee' = ctx sample_bee ∧
  Master (beeColony bee') = Master (beeColony sample_bee) ∧
  (bufferTxCmd ≠ addSlaveCmd → bufferTxCmd ≠ delSlaveCmd →
   beeColony bee' = beeColony sample_bee) ∧
  ∃ tx, any_Tx sample_tx = any_Tx tx ∧ txBuf bee' = txBuf sample_bee ++ [tx].
Proof.
  intros bee'.
  apply (handleCmd_frame sample_bee
           {| CmdType_of := bufferTxCmd; CmdData := any_Tx sample_tx;
              ResCh := Some 0 |} bee'
           [(0, {| Data := any_nil; Err := None |})] true).
  reflexivity.
Defined.
End handleCmd_more_samples.

(** ** Telling the slaves of a commit *)

Section notifyCommitTx_facts.
Import bh.
Context {C World : Type}.
Variable SendCmd : World → HiveID → RemoteCmd → World * option error.
Implicit Types (st : repl_state (World := World)) (slaves : list BeeID).

Lemma notifyCommitTx_loop_spec tx slaves : ∀ st ret,
  ret = last (omap snd (sends st)) →
  let r := notifyCommitTx_loop SendCmd tx slaves st ret in
  r.2 = last (omap snd (sends r.1)) ∧
  (sends r.1).*1 = (sends st).*1 ++ slaves ∧
  glog r.1 = glog st.
Proof.
  induction slaves as [|s rest IH]; intros st ret Hret; simpl.
  - by rewrite app_nil_r.
  - destruct (SendCmd _ _ _) as [w err].
    match goal with
    | |- context [notifyCommitTx_loop _ _ _ ?st' ?ret'] =>
        destruct (IH st' ret') as (-> & -> & ->)
    end.
    + simpl. rewrite omap_app. destruct err as [e|]; simpl.
      * by rewrite last_snoc.
      * by rewrite app_nil_r.
    + simpl. by rewrite fmap_app, <-app_assoc.
Qed.

Lemma notifyCommitTx_loop_is_send_each tx slaves : ∀ st ret,
  notifyCommitTx_loop SendCmd tx slaves st ret
  = let all := send_each SendCmd (NewRemoteCmd commitTxCmd (any_TxSeq tx))
                 (world st) slaves in
    ({| world := all.1; sends := sends st ++ all.2; glog := glog st |},
     match last (omap snd all.2) with
     | Some e => Some e
     | None => ret
     end).
Proof.
  induction slaves as [|s rest IH]; intros st ret; simpl.
  - rewrite app_nil_r. by destruct st.
  - destruct (SendCmd _ _ _) as [w1 err] eqn:Hs. rewrite IH. simpl.
    destruct (send_each _ _ _ _) as [w2 l]. simpl. rewrite <-app_assoc. simpl.
    f_equal. destruct err as [e|]; simpl; [|done].
    rewrite last_cons. unfold omap. by destruct (last _).
Qed.

(** X7.  [notifyCommitTx] calls [SendCmd] with the commit for every slave,
    in the order of the list, whatever the calls return, and writes
    nothing to the log; it returns the error of the last of these calls
    that failed, and nil exactly when none of them failed. *)
Theorem notifyCommitTx_tells_every_slave (bee : localBee C) (tx : TxSeq) (w : World) :
  let all := send_each SendCmd (NewRemoteCmd commitTxCmd (any_TxSeq tx)) w
               (Slaves (beeColony bee)) in
  notifyCommitTx SendCmd bee tx w
  = ({| world := all.1; sends := all.2; glog := [] |}, last (omap snd all.2)) ∧
  all.2.*1 = Slaves (beeColony bee) ∧
  (last (omap snd all.2) = None ↔ ∀ x, x ∈ all.2 → x.2 = None).
Proof.
  intros all. subst all. unfold notifyCommitTx.
  rewrite notifyCommitTx_loop_is_send_each. simpl.
  pose proof (send_each_slaves SendCmd (NewRemoteCmd commitTxCmd (any_TxSeq tx))
                (Slaves (beeColony bee)) w) as Hsl.
  destruct (send_each _ _ _ _) as [w2 l]. simpl in *. split_and!; [|done|].
  - by destruct (last (omap snd l)).
  - rewrite last_None. split.
    + intros Hnil x Hx. destruct x as [s [e|]]; [|done].
      assert (e ∈ omap snd l) as Hin.
      { apply list_elem_of_omap. by exists (s, Some e). }
      rewrite Hnil in Hin. by apply elem_of_nil in Hin.
    + intros Hall. destruct (omap snd l) as [|e l'] eqn:Ho; [done|].
      assert (e ∈ e :: l') as Hin by left. rewrite <-Ho in Hin.
      apply list_elem_of_omap in Hin as (x & Hx & Hsome).
      rewrite (Hall x Hx) in Hsome. done.
Qed.
End notifyCommitTx_facts.

(** ** The in-memory state: the stage stays well formed *)

Section well_staged_facts.
Import bh.
Implicit Types (s : inMemoryState) (n : DictName) (k : Key) (p : ptr)
  (r : DictRef).

Lemma well_staged_inMemDict s n :
  well_staged s → well_staged (inMemoryState_inMemDict s n).
Proof.
  intros [Hheap Hstage]. unfold inMemoryState_inMemDict.
  destruct (Dicts s !! n) eqn:Hn; [done|]. split; simpl.
  - intros p d Hp. destruct (Hheap p d Hp) as (u & Hu & Hk).
    exists u. split; [|done]. rewrite lookup_insert_ne; [done|]. congruence.
  - done.
Qed.

Lemma well_staged_Dict s n : well_staged s → well_staged (inMemoryState_Dict s n).1.
Proof.
  intros Hwf. pose proof (well_staged_inMemDict s n Hwf) as [Hheap Hstage].
  unfold inMemoryState_Dict. destruct (tx s) as [t|] eqn:Ht; simpl; [|done].
  assert (tx (inMemoryState_inMemDict s n) = Some t) as Ht1.
  { unfold inMemoryState_inMemDict. by destruct (Dicts s !! n). }
  split; simpl.
  - intros p d [Hp|[Hlen Hp]]%lookup_app_Some; [by eapply Hheap|].
    apply list_lookup_singleton_Some in Hp as [_ <-]. simpl.
    destruct (inMemDict_made s n) as (u & Hu & _). exists u. split; [done|].
    intros k o. simpl. by rewrite lookup_empty.
  - intros t' n' p [= <-]. simpl. destruct (decide (n = n')) as [<-|Hne].
    + rewrite lookup_insert_eq. intros [= <-].
      exists {| dict := n; ops := ∅ |}. split; [|done].
      rewrite lookup_app_r by done. by rewrite Nat.sub_diag.
    + rewrite lookup_insert_ne by done. intros Hp.
      destruct (Hstage t n' p Ht1 Hp) as (d & Hd & Hdn).
      exists d. split; [|done]. apply lookup_app_l_Some. done.
Qed.

Lemma keyed_ops_same_name u u' d :
  dictName u' = dictName u → keyed_ops u d → keyed_ops u' d.
Proof. intros Hn Hk k o Ho. rewrite Hn. by apply Hk. Qed.

Lemma well_staged_store_dict s n u u' :
  Dicts s !! n = Some u → dictName u' = dictName u →
  well_staged s → well_staged (store_dict n u' s).
Proof.
  intros Hu Hn [Hheap Hstage]. split; simpl; [|done].
  intros p d Hp. destruct (Hheap p d Hp) as (u0 & Hu0 & Hk).
  destruct (decide (n = dict d)) as [->|Hne].
  - exists u'. rewrite lookup_insert_eq. split; [done|].
    apply (keyed_ops_same_name u0); [congruence|done].
  - exists u0. by rewrite lookup_insert_ne.
Qed.

Lemma well_staged_store_staged s p d d' :
  heap s !! p = Some d → dict d' = dict d →
  (∀ u, keyed_ops u d → Dicts s !! dict d = Some u → keyed_ops u d') →
  well_staged s → well_staged (store_staged p d' s).
Proof.
  intros Hd Hdict Hkeyed [Hheap Hstage].
  assert (p < length (heap s)) as Hlt by (by eapply lookup_lt_Some).
  split; simpl.
  - intros p0 d0 Hp0. destruct (decide (p = p0)) as [<-|Hne].
    + rewrite list_lookup_insert_eq in Hp0 by done. injection Hp0 as <-.
      destruct (Hheap p d Hd) as (u & Hu & Hk). exists u. rewrite Hdict.
      split; [done|]. by apply Hkeyed.
    + rewrite list_lookup_insert_ne in Hp0 by done. by eapply Hheap.
  - intros t n p0 Ht Hn. destruct (Hstage t n p0 Ht Hn) as (d0 & Hd0 & Hdn).
    destruct (decide (p = p0)) as [<-|Hne].
    + exists d'. rewrite list_lookup_insert_eq by done. split; [done|].
      congruence.
    + exists d0. by rewrite list_lookup_insert_ne.
Qed.

Lemma well_staged_Put s r k v : well_staged s → well_staged (Dict_Put s r k v).1.
Proof.
  intros Hwf. destruct r as [n|p]; simpl.
  - destruct (Dicts s !! n) as [u|] eqn:Hu; [|done]. simpl.
    by apply (well_staged_store_dict s n u).
  - destruct (heap s !! p) as [d|] eqn:Hd; [|done].
    destruct (Dicts s !! dict d) as [u|] eqn:Hu; [|done]. simpl.
    apply (well_staged_store_staged s p d); [done|done| |done].
    intros u' Hk Hu' k' o. simpl. assert (u' = u) as -> by congruence.
    destruct (decide (k = k')) as [<-|Hne].
    + rewrite lookup_insert_eq. by intros [= <-].
    + rewrite lookup_insert_ne by done. apply Hk.
Qed.

Lemma well_staged_Del s r k : well_staged s → well_staged (Dict_Del s r k).1.
Proof.
  intros Hwf. destruct r as [n|p]; simpl.
  - destruct (Dicts s !! n) as [u|] eqn:Hu; [|done]. simpl.
    by apply (well_staged_store_dict s n u).
  - destruct (heap s !! p) as [d|] eqn:Hd; [|done].
    destruct (Dicts s !! dict d) as [u|] eqn:Hu; [|done]. simpl.
    apply (well_staged_store_staged s p d); [done|done| |done].
    intros u' Hk Hu' k' o. simpl. assert (u' = u) as -> by congruence.
    destruct (decide (k = k')) as [<-|Hne].
    + rewrite lookup_insert_eq. by intros [= <-].
    + rewrite lookup_insert_ne by done. apply Hk.
Qed.

Lemma well_staged_BeginTx s : well_staged s → well_staged (inMemoryState_BeginTx s).1.
Proof.
  intros Hwf. unfold inMemoryState_BeginTx.
  destruct (tx s) eqn:Ht; simpl; [done|]. destruct Hwf as [Hheap Hstage].
  split; simpl; [done|].
  intros t n p [= <-]. simpl. by rewrite lookup_empty.
Qed.

Lemma well_staged_commit_op n s o : well_staged s → well_staged (commit_op n s o).
Proof.
  intros Hwf. unfold commit_op. destruct (Dicts s !! n) as [u|] eqn:Hu; [|done].
  destruct (T o); by apply (well_staged_store_dict s n u).
Qed.

Lemma well_staged_Commit so oo : ∀ s,
  well_staged s → well_staged (inMemoryTx_Commit so oo s).
Proof.
  unfold inMemoryTx_Commit. induction so as [|np so IH]; intros s Hwf; [done|].
  simpl. apply IH. destruct (heap s !! np.2) as [d|]; [|done].
  generalize (oo np.2). intros os. revert s Hwf.
  induction os as [|ko os IHos]; intros s Hwf; [done|].
  simpl. by apply IHos, well_staged_commit_op.
Qed.

Lemma well_staged_run_api_call s a :
  well_staged s → well_staged (run_api_call s a).
Proof.
  intros Hwf. destruct a; simpl.
  - by apply well_staged_BeginTx.
  - unfold inMemoryState_CommitTx. destruct (tx s); [|done].
    by apply well_staged_Commit.
  - by rewrite AbortTx_state.
  - by apply well_staged_Dict.
  - by apply well_staged_Put.
  - by apply well_staged_Del.
Qed.

Lemma well_staged_run_calls cs : ∀ s, well_staged s → well_staged (run_calls cs s).
Proof.
  unfold run_calls. induction cs as [|c cs IH]; intros s Hwf; [done|].
  simpl. apply IH. destruct c; simpl.
  - by apply well_staged_Dict.
  - by apply (well_staged_Put s (StagedRef p)).
  - by apply (well_staged_Del s (StagedRef p)).
Qed.

(** X8.  Whatever is called on the state, in whatever order: every staged dict
    stays a staged dict over a dict of the state, every operation it holds
    is kept under its own key and names that dict, and the stage has for a
    name a staged dict over the dict of that name. *)
Theorem api_keeps_stage_well_formed cs s :
  well_staged s → well_staged (run_api cs s).
Proof.
  unfold run_api. revert s. induction cs as [|a cs IH]; intros s Hwf; [done|].
  simpl. by apply IH, well_staged_run_api_call.
Qed.

Lemma no_transaction_well_staged s : tx s = None → heap s = [] → well_staged s.
Proof. intros Ht Hh. split; [by rewrite Hh|by rewrite Ht]. Qed.

Lemma api_keeps_well_staged_from_empty cs s :
  tx s = None → heap s = [] → well_staged (run_api cs s).
Proof.
  intros Ht Hh. pose proof (no_transaction_well_staged s Ht Hh) as Hwf.
  clear Ht Hh. unfold run_api. revert s Hwf.
  induction cs as [|a cs IH]; intros s Hwf; [done|].
  simpl. by apply IH, well_staged_run_api_call.
Qed.

Lemma canonical_orders_range s :
  range_orders s (canonical_orders s).1 (canonical_orders s).2.
Proof.
  unfold canonical_orders. split; simpl.
  - intros t ->. apply range_order_canonical.
  - intros p d ->. apply range_order_canonical.
Qed.

Lemma api_keeps_stage_well_formed_witness :
  well_staged
    (run_api [api_BeginTx; api_Dict "d"; api_Put (StagedRef 0) "k" (bytes "v");
              api_AbortTx; api_Dict "d"; api_Del (StagedRef 1) "k"]
       sample_state).
Proof.
  apply (api_keeps_stage_well_formed _ sample_state).
  by apply no_transaction_well_staged.
Defined.
End well_staged_facts.

(** ** The in-memory state: what [CommitTx] writes *)

Section CommitTx_facts.
Import bh.
Implicit Types (s : inMemoryState) (n : DictName) (k : Key) (p : ptr)
  (so : list (DictName * ptr)) (oo : ptr → list (Key * StateOp)).

Lemma commit_op_other n s o n' :
  n' ≠ n → Dicts (commit_op n s o) !! n' = Dicts s !! n'.
Proof.
  intros Hne. unfold commit_op. destruct (Dicts s !! n); [|done].
  destruct (T o); simpl; by rewrite lookup_insert_ne.
Qed.

Lemma commit_ops_other n (os : list (Key * StateOp)) n' : ∀ s,
  n' ≠ n → Dicts (foldl (λ s ko, commit_op n s ko.2) s os) !! n' = Dicts s !! n'.
Proof.
  induction os as [|ko os IH]; intros s Hne; [done|]. simpl.
  rewrite IH by done. by apply commit_op_other.
Qed.

Lemma commit_op_Name n s o : Name (commit_op n s o) = Name s.
Proof. unfold commit_op. by destruct (Dicts s !! n), (T o). Qed.

Lemma Commit_Name so oo : ∀ s, Name (inMemoryTx_Commit so oo s) = Name s.
Proof.
  unfold inMemoryTx_Commit. induction so as [|np so IH]; intros s; [done|].
  simpl. rewrite IH. destruct (heap s !! np.2) as [d|]; [|done].
  generalize (oo np.2). intros os. revert s.
  induction os as [|ko os IHos]; intros s; [done|].
  simpl. by rewrite IHos, commit_op_Name.
Qed.

(** One staged dict committed: the dict it is over. *)
Lemma commit_staged_dict_named n (m : gmap Key StateOp) order s u :
  Dicts s !! n = Some u →
  range_order m order →
  (∀ k o, m !! k = Some o → K o = k) →
  ∃ u', Dicts (foldl (λ s ko, commit_op n s ko.2) s order) !! n = Some u' ∧
        dictName u' = dictName u ∧
        ∀ k, Dict u' !! k = committed m (Dict u) k.
Proof.
  intros Hu Horder Hkey.
  destruct (commit_ops_lookup n order s u Hu) as (u' & Hu' & Hname & Hlook).
  { by eapply range_order_NoDup_keys. }
  { intros k o Hin. apply Hkey. by apply (range_order_elem _ _ _ _ Horder). }
  exists u'. split_and!; [done..|]. intros k. rewrite Hlook. unfold committed.
  assert ((list_to_map order : gmap Key StateOp) = m) as ->; [|done].
  rewrite <-(list_to_map_to_list m).
  apply list_to_map_proper; [by eapply range_order_NoDup_keys|done].
Qed.

(** The staged dicts of a stage committed, one name at a time. *)
Lemma Commit_stage_lookup oo so : ∀ s,
  NoDup so.*1 →
  (∀ n p, (n, p) ∈ so →
          ∃ d u, heap s !! p = Some d ∧ dict d = n ∧ Dicts s !! n = Some u ∧
                 (∀ k o, ops d !! k = Some o → K o = k) ∧
                 range_order (ops d) (oo p)) →
  (∀ n p, (n, p) ∈ so →
          ∃ d u u', heap s !! p = Some d ∧ Dicts s !! n = Some u ∧
                    Dicts (inMemoryTx_Commit so oo s) !! n = Some u' ∧
                    dictName u' = dictName u ∧
                    ∀ k, Dict u' !! k = committed (ops d) (Dict u) k) ∧
  (∀ n, n ∉ so.*1 → Dicts (inMemoryTx_Commit so oo s) !! n = Dicts s !! n).
Proof.
  unfold inMemoryTx_Commit.
  induction so as [|[n0 p0] so IH]; intros s Hnd Hso.
  - split; [|done]. by intros n p ?%elem_of_nil.
  - apply NoDup_cons in Hnd as [Hn0 Hnd]. simpl.
    destruct (Hso n0 p0) as (d0 & u0 & Hd0 & Hdn0 & Hu0 & Hk0 & Ho0); [left|].
    rewrite Hd0, Hdn0.
    set (s1 := foldl (λ s ko, commit_op n0 s ko.2) s (oo p0)).
    destruct (commit_staged_dict_named n0 (ops d0) (oo p0) s u0 Hu0 Ho0 Hk0)
      as (u1 & Hu1 & Hname1 & Hlook1). fold s1 in Hu1.
    assert (heap s1 = heap s) as Hheap1 by apply commit_ops_frame.
    assert (∀ n, n ≠ n0 → Dicts s1 !! n = Dicts s !! n) as Hother.
    { intros n Hne. by apply commit_ops_other. }
    destruct (IH s1 Hnd) as [HA HB].
    { intros n p Hin. destruct (Hso n p) as (d & u & Hd & Hdn & Hu & Hk & Ho);
        [by right|].
      assert (n ≠ n0) as Hne.
      { intros ->. apply Hn0. apply list_elem_of_fmap. by exists (n0, p). }
      exists d, u. rewrite Hheap1, Hother by done. done. }
    split.
    + intros n p [[= -> ->]|Hin]%elem_of_cons.
      * exists d0, u0, u1. rewrite HB by done. done.
      * destruct (HA n p Hin) as (d & u & u' & Hd & Hu & Hu' & Hname & Hlook).
        assert (n ≠ n0) as Hne.
        { intros ->. apply Hn0. apply list_elem_of_fmap. by exists (n0, p). }
        exists d, u, u'. rewrite <-Hheap1, <-Hother by done. done.
    + intros n [Hne Hnin]%not_elem_of_cons. rewrite HB by done. by apply Hother.
Qed.

Lemma well_staged_stage_entries s t so oo :
  well_staged s → tx s = Some t → range_orders s so oo →
  NoDup so.*1 ∧
  (∀ n p, (n, p) ∈ so ↔ stage t !! n = Some p) ∧
  (∀ n p, (n, p) ∈ so →
          ∃ d u, heap s !! p = Some d ∧ dict d = n ∧ Dicts s !! n = Some u ∧
                 (∀ k o, ops d !! k = Some o → K o = k) ∧
                 range_order (ops d) (oo p)).
Proof.
  intros [Hheap Hstage] Ht [Hso Hoo]. specialize (Hso t Ht).
  assert (∀ n p, (n, p) ∈ so ↔ stage t !! n = Some p) as Hin.
  { intros n p. by apply range_order_elem. }
  split_and!; [by eapply range_order_NoDup_keys|done|].
  intros n p Hnp%Hin. destruct (Hstage t n p Ht Hnp) as (d & Hd & Hdn).
  destruct (Hheap p d Hd) as (u & Hu & Hk). rewrite Hdn in Hu.
  exists d, u. split_and!; [done..| |by apply Hoo].
  intros k o Ho. by apply Hk.
Qed.

Lemma CommitTx_lookup s t so oo :
  well_staged s → tx s = Some t → range_orders s so oo →
  ∀ n, match stage t !! n with
       | Some p =>
           ∃ d u u', heap s !! p = Some d ∧ Dicts s !! n = Some u ∧
                     Dicts (inMemoryState_CommitTx so oo s).1 !! n = Some u' ∧
                     dictName u' = dictName u ∧
                     ∀ k, Dict u' !! k = committed (ops d) (Dict u) k
       | None => Dicts (inMemoryState_CommitTx so oo s).1 !! n = Dicts s !! n
       end.
Proof.
  intros Hwf Ht Hord n.
  destruct (well_staged_stage_entries s t so oo Hwf Ht Hord) as (Hnd & Hin & Hso).
  destruct (Commit_stage_lookup oo so s Hnd Hso) as [HA HB].
  unfold inMemoryState_CommitTx. rewrite Ht. simpl.
  destruct (stage t !! n) as [p|] eqn:Hn.
  - apply HA. by apply Hin.
  - apply HB. intros ([n' p] & -> & Hnp%Hin)%list_elem_of_fmap. simpl in Hn.
    congruence.
Qed.

(** X9.  With a transaction open on a well-formed state, [CommitTx] returns nil
    and leaves in the dict of every name of the stage what its staged dict
    makes of it: the value of a [Put], nothing for a [Del], and what the
    dict held for a key without operation.  Dicts the stage does not name
    are as before.  The state after [CommitTx] does not depend on the
    orders in which the two loops range over the maps. *)
Theorem CommitTx_writes_the_stage s t so oo :
  well_staged s → tx s = Some t → range_orders s so oo →
  (inMemoryState_CommitTx so oo s).2 = None ∧
  (∀ n, match stage t !! n with
        | Some p =>
            ∃ d u u', heap s !! p = Some d ∧ Dicts s !! n = Some u ∧
                      Dicts (inMemoryState_CommitTx so oo s).1 !! n = Some u' ∧
                      dictName u' = dictName u ∧
                      ∀ k, Dict u' !! k = committed (ops d) (Dict u) k
        | None => Dicts (inMemoryState_CommitTx so oo s).1 !! n = Dicts s !! n
        end) ∧
  (∀ so' oo', range_orders s so' oo' →
              inMemoryState_CommitTx so' oo' s = inMemoryState_CommitTx so oo s).
Proof.
  intros Hwf Ht Hord. split_and!.
  - unfold inMemoryState_CommitTx. by rewrite Ht.
  - by apply CommitTx_lookup.
  - intros so' oo' Hord'.
    pose proof (CommitTx_lookup s t so oo Hwf Ht Hord) as H1.
    pose proof (CommitTx_lookup s t so' oo' Hwf Ht Hord') as H2.
    unfold inMemoryState_CommitTx in *. rewrite Ht in *. simpl in *. f_equal.
    destruct (Commit_frame so oo s) as [Htx1 Hh1].
    destruct (Commit_frame so' oo' s) as [Htx2 Hh2].
    pose proof (Commit_Name so oo s) as Hn1.
    pose proof (Commit_Name so' oo' s) as Hn2.
    destruct (inMemoryTx_Commit so oo s) as [N1 D1 T1 H1'].
    destruct (inMemoryTx_Commit so' oo' s) as [N2 D2 T2 H2'].
    simpl in *. f_equal; [congruence| |congruence|congruence].
    apply map_eq. intros n. specialize (H1 n). specialize (H2 n).
    destruct (stage t !! n) as [p|]; [|congruence].
    destruct H1 as (d & u & u1 & Hd & Hu & -> & Hname1 & Hlook1).
    destruct H2 as (d' & u' & u2 & Hd' & Hu' & -> & Hname2 & Hlook2).
    assert (d' = d) as -> by congruence. assert (u' = u) as -> by congruence.
    f_equal. destruct u1 as [a1 m1], u2 as [a2 m2]. simpl in *. f_equal.
    + congruence.
    + apply map_eq. intros k. by rewrite Hlook1, Hlook2.
Qed.

Lemma CommitTx_writes_the_stage_witness :
  let s := run_api [api_BeginTx; api_Dict "d";
                    api_Put (StagedRef 0) "a" (bytes "1");
                    api_Del (StagedRef 0) "b"] sample_state in
  let o := canonical_orders s in
  (inMemoryState_CommitTx o.1 o.2 s).2 = None.
Proof.
  intros s o.
  refine (proj1 (CommitTx_writes_the_stage s {| stage := {[ "d" := 0 ]} |}
                   o.1 o.2 _ _ _)).
  - apply (api_keeps_well_staged_from_empty _ sample_state); reflexivity.
  - reflexivity.
  - apply canonical_orders_range.
Defined.
End CommitTx_facts.

Section commit_after_calls.
Import bh.
Implicit Types (s : inMemoryState) (n : DictName) (k : Key) (p : ptr).

(** X10.  Let [Dict(n)] return a staged dict inside a transaction, let the
    handler go on with any calls, and let the stage still hold that staged
    dict for [n] when [CommitTx] is called.  Then the dict [n] gives for
    [k] the value of the most recent [Put] staged for [k] on that staged
    dict, no value when the most recent operation is a [Del], and what it
    gave before the transaction when nothing was staged for [k]. *)
Theorem CommitTx_shows_most_recent_intent s n s1 p cs t so oo k :
  well_staged s →
  inMemoryState_Dict s n = (s1, StagedRef p) →
  let s2 := run_calls cs s1 in
  tx s2 = Some t → stage t !! n = Some p →
  range_orders s2 so oo →
  underlying_Get (inMemoryState_CommitTx so oo s2).1 n k =
    match last_staged p k cs with
    | Some (Put, v) => (v, None)
    | Some (Del, _) => (nilValue, Some (errors_New "Key does not exist."))
    | None => underlying_Get s n k
    end.
Proof.
  intros Hwf Hd s2 Ht Hn Hord.
  assert (well_staged s2) as Hwf2.
  { apply well_staged_run_calls. replace s1 with (inMemoryState_Dict s n).1
      by (by rewrite Hd). by apply well_staged_Dict. }
  destruct (view_run p n cs s1 [] (view_fresh _ _ _ _ Hd))
    as (d & Hp & _ & _ & Hops & _).
  fold s2 in Hp. simpl in Hops.
  pose proof (CommitTx_lookup s2 t so oo Hwf2 Ht Hord n) as Hc.
  rewrite Hn in Hc. destruct Hc as (d' & u & u' & Hp' & Hu & Hu' & _ & Hlook).
  assert (d' = d) as -> by congruence.
  assert (same_underlying s s2) as Hsame.
  { eapply same_underlying_trans; [|apply run_calls_same_underlying].
    replace s1 with (inMemoryState_Dict s n).1 by (by rewrite Hd).
    apply Dict_same_underlying. }
  rewrite <-(same_underlying_Get s s2 n k Hsame).
  unfold underlying_Get. rewrite Hu', Hu. unfold inMemDict_Get.
  rewrite Hlook. unfold committed. rewrite <-(Hops k).
  destruct (ops d !! k) as [o|]; simpl; [|done]. by destruct (T o).
Qed.

Lemma CommitTx_shows_most_recent_intent_witness :
  let s1 := (inMemoryState_BeginTx sample_state).1 in
  let s2 := (inMemoryState_Dict s1 "d").1 in
  let cs := [call_Put 0 "a" (bytes "1"); call_Put 0 "a" (bytes "2")] in
  let o := canonical_orders (run_calls cs s2) in
  underlying_Get (inMemoryState_CommitTx o.1 o.2 (run_calls cs s2)).1 "d" "a"
  = (bytes "2", None).
Proof.
  intros s1 s2 cs o.
  apply (CommitTx_shows_most_recent_intent s1 "d" s2 0 cs
           {| stage := {[ "d" := 0 ]} |} o.1 o.2 "a").
  - apply (api_keeps_well_staged_from_empty [api_BeginTx] sample_state);
      reflexivity.
  - reflexivity.
  - reflexivity.
  - reflexivity.
  - apply canonical_orders_range.
Defined.
End commit_after_calls.

(** ** The in-memory state: the life of the transaction *)

Section transaction_facts.
Import bh.
Implicit Types (s : inMemoryState) (n : DictName) (k : Key).

Lemma Dict_tx_is_Some s n : is_Some (tx s) → is_Some (tx (inMemoryState_Dict s n).1).
Proof.
  intros [t Ht]. unfold inMemoryState_Dict. rewrite Ht. simpl. eauto.
Qed.

Lemma Put_tx s r k v : tx (Dict_Put s r k v).1 = tx s.
Proof.
  destruct r as [n|p]; simpl.
  - by destruct (Dicts s !! n).
  - destruct (heap s !! p) as [d|]; [|done]. by destruct (Dicts s !! dict d).
Qed.

Lemma Del_tx s r k : tx (Dict_Del s r k).1 = tx s.
Proof.
  destruct r as [n|p]; simpl.
  - by destruct (Dicts s !! n).
  - destruct (heap s !! p) as [d|]; [|done]. by destruct (Dicts s !! dict d).
Qed.

Lemma run_api_call_tx_is_Some s a : is_Some (tx s) → is_Some (tx (run_api_call s a)).
Proof.
  intros Hs. destruct a; simpl.
  - unfold inMemoryState_BeginTx. destruct (tx s) eqn:Ht; simpl; [by rewrite Ht|eauto].
  - by rewrite CommitTx_keeps_tx.
  - by rewrite AbortTx_state.
  - by apply Dict_tx_is_Some.
  - by rewrite Put_tx.
  - by rewrite Del_tx.
Qed.

(** X11.  Once a transaction is open on a state it stays open, whatever is
    called on the state: from then on [BeginTx] returns its error, and
    [CommitTx] and [AbortTx] return nil. *)
Theorem transaction_never_closes cs s :
  is_Some (tx s) →
  let s' := run_api cs s in
  (inMemoryState_BeginTx s').2 = Some (errors_New "Transaction is already started") ∧
  (inMemoryState_AbortTx s').2 = None ∧
  ∀ so oo, (inMemoryState_CommitTx so oo s').2 = None.
Proof.
  intros Hs s'. assert (is_Some (tx s')) as [t Ht].
  { subst s'. unfold run_api. revert s Hs.
    induction cs as [|a cs IH]; intros s Hs; [done|].
    simpl. by apply IH, run_api_call_tx_is_Some. }
  unfold inMemoryState_BeginTx, inMemoryState_AbortTx, inMemoryState_CommitTx.
  by rewrite Ht.
Qed.

Lemma transaction_never_closes_witness :
  let s' := run_api [api_Dict "d"; api_Put (StagedRef 0) "k" (bytes "v");
                     api_CommitTx [] (λ _, []); api_AbortTx]
              (inMemoryState_BeginTx sample_state).1 in
  (inMemoryState_BeginTx s').2 = Some (errors_New "Transaction is already started") ∧
  (inMemoryState_AbortTx s').2 = None ∧
  ∀ so oo, (inMemoryState_CommitTx so oo s').2 = None.
Proof.
  apply (transaction_never_closes _ (inMemoryState_BeginTx sample_state).1).
  simpl. eauto.
Defined.

(** X12.  Without a transaction, [Dict(n)] gives direct access: after
    [Dict(n).Put(k, v)], [Dict(n).Get(k)] returns [v]; after
    [Dict(n).Del(k)] it returns the error of a missing key; either way
    every other key of every dict gives what it gave before. *)
Theorem direct_Put_Del_Get s n k v :
  tx s = None →
  let d := inMemoryState_Dict s n in
  let s_put := (Dict_Put d.1 d.2 k v).1 in
  let s_del := (Dict_Del d.1 d.2 k).1 in
  Get_through_Dict s_put n k = (v, None) ∧
  Get_through_Dict s_del n k = (nilValue, Some (errors_New "Key does not exist.")) ∧
  ∀ n' k', (n', k') ≠ (n, k) →
           Get_through_Dict s_put n' k' = Get_through_Dict s n' k' ∧
           Get_through_Dict s_del n' k' = Get_through_Dict s n' k'.
Proof.
  intros Ht d s_put s_del. subst d s_put s_del.
  unfold inMemoryState_Dict. rewrite Ht. simpl.
  destruct (inMemDict_made s n) as (u & Hu & Hget). rewrite Hu. simpl.
  rewrite !Get_through_Dict_underlying. unfold underlying_Get at 1 2. simpl.
  rewrite !lookup_insert_eq. unfold inMemDict_Get at 1 2. simpl.
  rewrite lookup_insert_eq, lookup_delete_eq. split_and!; [done..|].
  intros n' k' Hne. rewrite !Get_through_Dict_underlying.
  unfold underlying_Get at 1 3. simpl.
  destruct (decide (n = n')) as [<-|Hn].
  - rewrite !lookup_insert_eq. unfold inMemDict_Get at 1 2. simpl.
    assert (k ≠ k') as Hk by congruence.
    rewrite lookup_insert_ne, lookup_delete_ne by done.
    rewrite <-(Hget k'). done.
  - rewrite !lookup_insert_ne by done.
    pose proof (inMemDict_same_underlying s n n') as [->|[Hnone Hsome]].
    + done.
    + unfold underlying_Get. rewrite Hnone.
      unfold inMemoryState_inMemDict in Hsome. 
      destruct (Dicts s !! n) eqn:Hsn; [congruence|]. simpl in Hsome.
      rewrite lookup_insert_ne in Hsome by done. congruence.
Qed.

Lemma direct_Put_Del_Get_witness :
  let d := inMemoryState_Dict sample_state "d" in
  Get_through_Dict (Dict_Put d.1 d.2 "k" (bytes "v")).1 "d" "k" = (bytes "v", None).
Proof.
  intros d.
  refine (proj1 (direct_Put_Del_Get sample_state "d" "k" (bytes "v") _)).
  reflexivity.
Defined.
End transaction_facts.

Section Tx_more.
Import bh.
Implicit Types (s : inMemoryState) (so : list (DictName * ptr)).

Lemma elem_of_concat {X} (x : X) (ls : list (list X)) :
  x ∈ concat ls ↔ ∃ l, x ∈ l ∧ l ∈ ls.
Proof.
  rewrite list_elem_of_In, in_concat. split.
  - intros (l & Hl & Hx). exists l. by rewrite !list_elem_of_In.
  - intros (l & Hx & Hl). exists l. by rewrite <-!list_elem_of_In.
Qed.

(** X13.  With a transaction open, [Tx] returns zero values and then the
    operations that the staged dicts of the stage hold: as many zero
    values as operations, and as many operations as those staged dicts
    hold. *)
Theorem Tx_lists_the_stage_after_zero_values zeroT so1 so2 oo s t :
  tx s = Some t → range_orders s so1 oo → range_orders s so2 oo →
  ∃ staged,
    inMemoryState_Tx zeroT so1 so2 oo s
    = Some (replicate (length staged) (zero_StateOp zeroT) ++ staged) ∧
    length staged = sum_list (staged_count s <$> map_to_list (stage t)) ∧
    ∀ o, o ∈ staged ↔
         ∃ n p d k, stage t !! n = Some p ∧ heap s !! p = Some d ∧
                    ops d !! k = Some o.
Proof.
  intros Ht [Hso1 Hoo] [Hso2 _]. specialize (Hso1 t Ht). specialize (Hso2 t Ht).
  exists (concat (staged_ops s oo <$> so2)). split_and!.
  - by apply (Tx_zero_values_first zeroT so1 so2 oo s t).
  - rewrite length_concat, <-list_fmap_compose.
    unfold range_order in Hso2. rewrite <-Hso2. f_equal.
    apply list_fmap_ext. intros i np _. simpl.
    unfold staged_count, staged_ops. destruct (heap s !! np.2) as [d|] eqn:Hd; [|done].
    rewrite length_fmap. apply range_order_length. by eapply Hoo.
  - intros o. rewrite elem_of_concat. split.
    + intros (l & Ho & ([n p] & -> & Hnp)%list_elem_of_fmap).
      unfold staged_ops in Ho. simpl in Ho.
      destruct (heap s !! p) as [d|] eqn:Hd; [|by apply elem_of_nil in Ho].
      apply list_elem_of_fmap in Ho as ([k o'] & -> & Hko).
      exists n, p, d, k. split_and!; [|done|].
      * by apply (range_order_elem _ _ _ _ Hso2).
      * by apply (range_order_elem _ _ _ _ (Hoo p d Hd)).
    + intros (n & p & d & k & Hn & Hd & Ho).
      exists (staged_ops s oo (n, p)). split.
      * unfold staged_ops. simpl. rewrite Hd. apply list_elem_of_fmap.
        exists (k, o). split; [done|].
        by apply (range_order_elem _ _ _ _ (Hoo p d Hd)).
      * apply list_elem_of_fmap. exists (n, p). split; [done|].
        by apply (range_order_elem _ _ _ _ Hso2).
Qed.

Lemma Tx_lists_the_stage_after_zero_values_witness :
  let s := run_api [api_BeginTx; api_Dict "d";
                    api_Put (StagedRef 0) "a" (bytes "1");
                    api_Del (StagedRef 0) "b"] sample_state in
  let o := canonical_orders s in
  let t := {| stage := {[ "d" := 0 ]} |} in
  ∃ staged,
    inMemoryState_Tx Put o.1 o.1 o.2 s
    = Some (replicate (length staged) (zero_StateOp Put) ++ staged) ∧
    length staged = sum_list (staged_count s <$> map_to_list (stage t)) ∧
    ∀ o, o ∈ staged ↔
         ∃ n p d k, stage t !! n = Some p ∧ heap s !! p = Some d ∧
                    ops d !! k = Some o.
Proof.
  intros s o t.
  apply (Tx_lists_the_stage_after_zero_values Put o.1 o.1 o.2 s t).
  - reflexivity.
  - apply canonical_orders_range.
  - apply canonical_orders_range.
Defined.
End Tx_more.

(** ** Registering a handler *)

Section registerHandler_facts.
Import beehive.
Context {Handler : Type}.
Implicit Types (qs : list (qeeAndHandler Handler)) (l : Handler)
  (qees : gmap string (list (qeeAndHandler Handler))).

Lemma registerHandler_loop_None all q0 l rest : ∀ i,
  registerHandler_loop all q0 l i rest = None ↔ q0 ∉ q <$> rest.
Proof.
  induction rest as [|qh rest IH]; intros i; simpl.
  - split; [|done]. intros _. apply not_elem_of_nil.
  - rewrite not_elem_of_cons. destruct (decide (q qh = q0)) as [Hq|Hq].
    + split; [done|]. by intros [? _].
    + rewrite IH. split; [by split|by intros [_ ?]].
Qed.

Lemma registerHandler_loop_Some all q0 l rest : ∀ i qs',
  drop i all = rest →
  registerHandler_loop all q0 l i rest = Some qs' →
  ∃ j qh, all !! j = Some qh ∧ q qh = q0 ∧ i ≤ j ∧
          qs' = <[j := {| q := q0; h := l |}]> all ∧
          ∀ j' qh', i ≤ j' < j → all !! j' = Some qh' → q qh' ≠ q0.
Proof.
  induction rest as [|qh rest IH]; intros i qs' Hd Hloop; [done|].
  simpl in Hloop. destruct (drop_cons_next _ _ _ _ Hd) as [Hd' Hlt].
  assert (all !! i = Some qh) as Hi.
  { rewrite <-(Nat.add_0_r i), <-lookup_drop, Hd. done. }
  destruct (decide (q qh = q0)) as [Hq|Hq].
  - injection Hloop as <-. exists i, qh. rewrite Hq.
    split_and!; [done..|]. intros j' qh' ?. lia.
  - destruct (IH (S i) qs' Hd' Hloop) as (j & qh0 & Hj & Hq0 & Hle & -> & Hbefore).
    exists j, qh0. split_and!; [done|done|lia|done|].
    intros j' qh' Hj' Hqh'. destruct (decide (j' = i)) as [->|Hne].
    + congruence.
    + apply (Hbefore j'); [lia|done].
Qed.

(** X14.  [registerHandler(t, q, l)] makes [l] the handler of the qee [q] for
    the type [t]: afterwards the first entry of [q] under [t] has the
    handler [l].  The qees under [t] are those there were, in their order,
    with [q] at the end when it was not among them; the entries of other
    qees are as before and where they were, and so are the other types. *)
Theorem registerHandler_sets_the_handler qees t q0 l :
  let qs := default [] (qees !! t) in
  ∃ qs', hive_registerHandler qees t q0 l !! t = Some qs' ∧
    q <$> qs' = (if decide (q0 ∈ q <$> qs) then q <$> qs else (q <$> qs) ++ [q0]) ∧
    (∃ i, qs' !! i = Some {| q := q0; h := l |} ∧
          ∀ j qh, j < i → qs' !! j = Some qh → q qh ≠ q0) ∧
    (∀ i qh, q qh ≠ q0 → qs' !! i = Some qh ↔ qs !! i = Some qh) ∧
    (∀ t', t' ≠ t → hive_registerHandler qees t q0 l !! t' = qees !! t').
Proof.
  intros qs. unfold hive_registerHandler. fold qs.
  destruct (registerHandler_loop qs q0 l 0 qs) as [qs'|] eqn:Hloop.
  - destruct (registerHandler_loop_Some qs q0 l qs 0 qs' (drop_0 _) Hloop)
      as (j & qh & Hj & Hq & _ & -> & Hbefore).
    assert (j < length qs) as Hlt by (by eapply lookup_lt_Some).
    eexists. rewrite lookup_insert_eq. split_and!; [done| | | |].
    + rewrite decide_True.
      * rewrite list_fmap_insert. simpl. apply list_insert_id.
        by rewrite list_lookup_fmap, Hj, <-Hq.
      * apply list_elem_of_fmap. exists qh. split; [done|].
        by eapply list_elem_of_lookup_2.
    + exists j. split; [by apply list_lookup_insert_eq|].
      intros j' qh' Hj' Hqh'. rewrite list_lookup_insert_ne in Hqh' by lia.
      apply (Hbefore j'); [lia|done].
    + intros i qh' Hne. destruct (decide (j = i)) as [<-|Hji].
      * rewrite list_lookup_insert_eq by done. rewrite Hj.
        split; intros [= <-]; done.
      * by rewrite list_lookup_insert_ne.
    + intros t' Hne. by rewrite lookup_insert_ne.
  - apply registerHandler_loop_None in Hloop.
    eexists. rewrite lookup_insert_eq. split_and!; [done| | | |].
    + rewrite decide_False by done. by rewrite fmap_app.
    + exists (length qs). split; [apply list_lookup_middle; done|].
      intros j qh Hj Hqh. rewrite lookup_app_l in Hqh by done.
      intros Hq. apply Hloop. apply list_elem_of_fmap. exists qh.
      split; [done|]. by eapply list_elem_of_lookup_2.
    + intros i qh Hne. split.
      * intros [Hi|[Hlen Hi]]%lookup_app_Some; [done|].
        apply list_lookup_singleton_Some in Hi as [_ <-]. done.
      * apply lookup_app_l_Some.
    + intros t' Hne. by rewrite lookup_insert_ne.
Qed.

(** X15.  A list of qees without duplicates stays without duplicates. *)
Theorem registerHandler_keeps_qees_distinct qees t q0 l :
  (∀ t' qs, qees !! t' = Some qs → NoDup (q <$> qs)) →
  ∀ t' qs, hive_registerHandler qees t q0 l !! t' = Some qs → NoDup (q <$> qs).
Proof.
  intros Hnd t' qs'. unfold hive_registerHandler.
  set (qs := default [] (qees !! t)).
  assert (NoDup (q <$> qs)) as Hqs.
  { subst qs. destruct (qees !! t) as [qs0|] eqn:Ht; simpl; [by eapply Hnd|].
    apply NoDup_nil_2. }
  destruct (decide (t' = t)) as [->|Hne].
  - destruct (registerHandler_loop qs q0 l 0 qs) as [qs1|] eqn:Hloop;
      rewrite lookup_insert_eq; intros [= <-].
    + destruct (registerHandler_loop_Some qs q0 l qs 0 qs1 (drop_0 _) Hloop)
        as (j & qh & Hj & Hq & _ & -> & _).
      rewrite list_fmap_insert. simpl. rewrite list_insert_id; [done|].
      by rewrite list_lookup_fmap, Hj, <-Hq.
    + apply registerHandler_loop_None in Hloop. rewrite fmap_app.
      apply NoDup_app. split_and!; [done| |apply NoDup_singleton].
      intros x Hx ->%list_elem_of_singleton. done.
  - destruct (registerHandler_loop qs q0 l 0 qs);
      rewrite lookup_insert_ne by done; apply Hnd.
Qed.

End registerHandler_facts.

Section registerHandler_sample.
Import beehive.

Lemma registerHandler_keeps_qees_distinct_witness :
  NoDup (q <$> [{| q := 1; h := "second" |}]).
Proof.
  apply (registerHandler_keeps_qees_distinct
           (hive_registerHandler ∅ "ping" 1 "first") "ping" 1 "second")
    with (t' := "ping").
  - intros t' qs.
    change (hive_registerHandler ∅ "ping" 1 "first")
      with (<["ping" := [{| q := 1; h := "first" |}]]>
              (∅ : gmap string (list (qeeAndHandler string)))).
    destruct (decide (t' = "ping")) as [->|Hne].
    + rewrite lookup_insert_eq. intros [= <-]. simpl. apply NoDup_singleton.
    + rewrite lookup_insert_ne by done. by rewrite lookup_empty.
  - reflexivity.
Defined.
End registerHandler_sample.

(** ** The loop of the bee *)

Section start_facts.
Import bh.
Context {C Msg : Type} {RC : RcvContext C}.
Implicit Types (bee : localBee C) (cmd : LocalCmd)
  (rs : list (receive (C := C) (Msg := Msg)))
  (st : loop_state (C := C)).

Lemma handleCmd_continues bee cmd stc ok :
  handleCmd bee cmd = Returns (stc, ok) →
  ok = false ↔ CmdType_of cmd = stopCmd.
Proof.
  intros H. destruct cmd as [t d ch].
  unfold handleCmd, send, assert_addSlaveCmdData, assert_delSlaveCmdData,
    assert_BeeID, assert_Tx, assert_TxSeq in H.
  repeat (simpl in H;
          match type of H with
          | context [match ?x with _ => _ end] => destruct x eqn:?
          end);
  simpl in H; try discriminate H; by injection H as <- <-.
Qed.

(** [handleCmd] returns false for the stop command with a channel for the
    result, and for nothing else: it has then sent the one empty result
    and left the bee alone. *)
Lemma handleCmd_stops bee cmd bee' results :
  handleCmd bee cmd = Returns ((bee', results), false) ↔
  CmdType_of cmd = stopCmd ∧
  ∃ ch, ResCh cmd = Some ch ∧ bee' = bee ∧
        results = [(ch, {| Data := any_nil; Err := None |})].
Proof.
  split.
  - intros H. pose proof (proj1 (handleCmd_continues _ _ _ _ H) eq_refl) as Ht.
    split; [done|]. unfold handleCmd in H. rewrite Ht in H.
    destruct (ResCh cmd) as [ch|]; simpl in H; [|done].
    injection H as <- <-. by exists ch.
  - intros (Ht & ch & Hch & -> & ->). unfold handleCmd. by rewrite Ht, Hch.
Qed.

(** The stop command without a channel for the result: [handleCmd] blocks
    in the send, with nothing sent. *)
Lemma handleCmd_stop_nil_blocks bee cmd :
  CmdType_of cmd = stopCmd → ResCh cmd = None →
  handleCmd bee cmd = BlocksForever (bee, []).
Proof. intros Ht Hch. unfold handleCmd. by rewrite Ht, Hch. Qed.

(** A loop that waits after the receives [rs1] goes on from there with the
    receives that follow. *)
Lemma start_app rs1 : ∀ st st1 rs2,
  localBee_start rs1 st = (st1, loop_waits) →
  localBee_start (rs1 ++ rs2) st = localBee_start rs2 st1.
Proof.
  induction rs1 as [|r rs1 IH]; intros st st1 rs2; simpl.
  - by intros [= <-].
  - destruct r as [d| |c|]; [apply IH|done| |done].
    destruct (handleCmd (loop_bee st) c)
      as [[[bee results] [|]]|[bee results] what|[bee results]]; [apply IH|done..].
Qed.

Lemma start_waits rs : ∀ st st',
  localBee_start rs st = (st', loop_waits) →
  Forall (λ y, ¬ ends_the_loop y) rs.
Proof.
  induction rs as [|r rs IH]; intros st st'; simpl; [by constructor|].
  destruct r as [d| |c|]; [|done| |done].
  - intros H. constructor; [by intros []|]. by eapply IH.
  - destruct (handleCmd (loop_bee st) c)
      as [[[bee results] ok]|[bee results] what|[bee results]] eqn:Hc; [|done..].
    pose proof (handleCmd_continues _ _ _ _ Hc) as Hok.
    destruct ok; [|done]. intros H. constructor; [|by eapply IH].
    simpl. intros Hs. by apply Hok in Hs.
Qed.

Lemma start_returns rs : ∀ st st',
  localBee_start rs st = (st', loop_returns) →
  ∃ rs1 x rs2 st1,
    rs = rs1 ++ x :: rs2 ∧ localBee_start rs1 st = (st1, loop_waits) ∧
    localBee_start [x] st1 = (st', loop_returns).
Proof.
  induction rs as [|r rs IH]; intros st st'; simpl; [done|].
  destruct r as [d| |c|].
  - intros H. destruct (IH _ _ H) as (rs1 & x & rs2 & st1 & -> & Hw & Hx).
    by exists (recv_data d :: rs1), x, rs2, st1.
  - intros [= <-]. by exists [], recv_data_closed, rs, st.
  - destruct (handleCmd (loop_bee st) c)
      as [[[bee results] ok]|[bee results] what|[bee results]] eqn:Hc; [|done..].
    destruct ok.
    + intros H. destruct (IH _ _ H) as (rs1 & x & rs2 & st1 & -> & Hw & Hx).
      exists (recv_ctrl c :: rs1), x, rs2, st1. split_and!; [done| |done].
      simpl. by rewrite Hc.
    + intros [= <-]. exists [], (recv_ctrl c), rs, st. split_and!; [done|done|].
      simpl. by rewrite Hc.
  - intros [= <-]. by exists [], recv_ctrl_closed, rs, st.
Qed.

(** The one receive on which a waiting loop returns, and the state it
    returns with. *)
Lemma start_returns_on (x : receive (C := C) (Msg := Msg)) st1 st' :
  localBee_start [x] st1 = (st', loop_returns) ↔
  ((x = recv_data_closed ∨ x = recv_ctrl_closed) ∧ st' = st1) ∨
  ∃ c ch, x = recv_ctrl c ∧ CmdType_of c = stopCmd ∧ ResCh c = Some ch ∧
          st' = {| loop_bee := loop_bee st1;
                   loop_sent := loop_sent st1
                                ++ [(ch, {| Data := any_nil; Err := None |})];
                   loop_calls := loop_calls st1;
                   loop_errlog := loop_errlog st1 |}.
Proof.
  destruct x as [d| |c|]; simpl.
  - split; [done|]. intros [[[?|?] _]|(c & ch & ? & _)]; done.
  - split.
    + intros [= <-]. left. split; [by left|done].
    + intros [[_ ->]|(c & ch & ? & _)]; done.
  - destruct (handleCmd (loop_bee st1) c)
      as [[[bee results] ok]|[bee results] what|[bee results]] eqn:Hc.
    + destruct ok.
      * split; [done|]. intros [[[?|?] _]|(c' & ch & [= <-] & Ht & Hch & _)];
          [done..|].
        assert (handleCmd (loop_bee st1) c
                = Returns ((loop_bee st1,
                            [(ch, {| Data := any_nil; Err := None |})]), false))
          as Hc' by (apply handleCmd_stops; eauto). congruence.
      * apply handleCmd_stops in Hc as (Ht & ch & Hch & -> & ->). split.
        -- intros [= <-]. right. by exists c, ch.
        -- intros [[[?|?] _]|(c' & ch' & [= <-] & _ & Hch' & ->)]; [done..|].
           congruence.
    + split; [done|]. intros [[[?|?] _]|(c' & ch & [= <-] & Ht & Hch & _)];
        [done..|].
      assert (handleCmd (loop_bee st1) c
              = Returns ((loop_bee st1,
                          [(ch, {| Data := any_nil; Err := None |})]), false))
        as Hc' by (apply handleCmd_stops; eauto). congruence.
    + split; [done|]. intros [[[?|?] _]|(c' & ch & [= <-] & Ht & Hch & _)];
        [done..|].
      assert (handleCmd (loop_bee st1) c
              = Returns ((loop_bee st1,
                          [(ch, {| Data := any_nil; Err := None |})]), false))
        as Hc' by (apply handleCmd_stops; eauto). congruence.
  - split.
    + intros [= <-]. left. split; [by right|done].
    + intros [[_ ->]|(c & ch & ? & _)]; done.
Qed.

(** X16.  [start] returns exactly when, while it waits, it receives the
    news of a closed channel, or the stop command with a channel for the
    result: it returns at the first such receive, with the bee as the
    receives before it left it (and the one empty result sent, for the stop
    command), and what is received after it is not looked at.  On the stop
    command without a channel for the result it does not return: it
    blocks in the send.  As long as it waits for more, nothing it received
    was the news of a closed channel or a stop command. *)
Theorem start_returns_at_stop_or_closed_channel rs st :
  (∀ st', localBee_start rs st = (st', loop_returns) ↔
     ∃ rs1 x rs2 st1,
       rs = rs1 ++ x :: rs2 ∧
       localBee_start rs1 st = (st1, loop_waits) ∧
       Forall (λ y, ¬ ends_the_loop y) rs1 ∧
       (((x = recv_data_closed ∨ x = recv_ctrl_closed) ∧ st' = st1) ∨
        ∃ c ch, x = recv_ctrl c ∧ CmdType_of c = stopCmd ∧ ResCh c = Some ch ∧
                st' = {| loop_bee := loop_bee st1;
                         loop_sent := loop_sent st1
                                      ++ [(ch, {| Data := any_nil; Err := None |})];
                         loop_calls := loop_calls st1;
                         loop_errlog := loop_errlog st1 |}))
  ∧
  (∀ rs1 c rs2 st1,
     localBee_start rs1 st = (st1, loop_waits) →
     CmdType_of c = stopCmd → ResCh c = None →
     localBee_start (rs1 ++ recv_ctrl c :: rs2) st
     = ({| loop_bee := loop_bee st1; loop_sent := loop_sent st1 ++ [];
           loop_calls := loop_calls st1; loop_errlog := loop_errlog st1 |},
        loop_blocks))
  ∧
  (∀ st', localBee_start rs st = (st', loop_waits) →
     Forall (λ y, ¬ ends_the_loop y) rs).
Proof.
  split_and!.
  - intros st'. split.
    + intros H. destruct (start_returns _ _ _ H)
        as (rs1 & x & rs2 & st1 & -> & Hw & Hx).
      exists rs1, x, rs2, st1. split_and!; [done|done|by eapply start_waits|].
      by apply start_returns_on.
    + intros (rs1 & x & rs2 & st1 & -> & Hw & _ & Hx).
      rewrite (start_app _ _ _ _ Hw). apply start_returns_on in Hx.
      destruct x as [d| |c|]; simpl in *; [done|done| |done].
      destruct (handleCmd (loop_bee st1) c)
        as [[[bee results] [|]]|[bee results] what|[bee results]]; done.
  - intros rs1 c rs2 st1 Hw Ht Hch. rewrite (start_app _ _ _ _ Hw). simpl.
    by rewrite (handleCmd_stop_nil_blocks _ _ Ht Hch).
  - apply start_waits.
Qed.

(** X17.  [handleMsg] gives the handler the context of the bee, after
    [BeginTx] exactly for a transactional application.  The bee is then
    the bee it was, with the context the handler left after [CommitTx]
    when the handler returned nil, and after [AbortTx] when it returned
    an error or panicked: the colony and the buffered transactions are
    left alone.  [CommitTx] is called exactly when the handler returns
    nil, and the stat collector exactly then; [AbortTx] is called exactly
    when it does not, and the error log is written exactly then. *)
Theorem handleMsg_frame bee (mh : msgAndHandler (C := C) (Msg := Msg)) :
  let r := handleMsg bee mh in
  let ce := handler mh (msg mh)
              (if app_Transactional (ctx bee)
               then rcvContext_BeginTx (ctx bee) else ctx bee) in
  the_bee r = {| ctx := match ce.2 with
                        | rcv_returns None => rcvContext_CommitTx ce.1
                        | _ => rcvContext_AbortTx ce.1
                        end;
                 beeColony := beeColony bee;
                 txBuf := txBuf bee |} ∧
  beeColony (the_bee r) = beeColony bee ∧
  txBuf (the_bee r) = txBuf bee ∧
  (called_BeginTx ∈ calls r ↔ app_Transactional (ctx bee) = true) ∧
  (called_CommitTx ∈ calls r ↔ ce.2 = rcv_returns None) ∧
  (called_AbortTx ∈ calls r ↔ ce.2 ≠ rcv_returns None) ∧
  (called_collect ∈ calls r ↔ called_CommitTx ∈ calls r) ∧
  (errlog r ≠ [] ↔ called_AbortTx ∈ calls r).
Proof.
  intros r ce. subst r ce. unfold handleMsg.
  destruct (app_Transactional (ctx bee)); simpl;
    destruct (handler mh (msg mh) _) as [c [[err|]|v]]; simpl;
    split_and!; try done;
    (split; intros Hx;
     first [ done
           | list_has
           | exfalso; revert Hx; list_has_not
           | exfalso; by apply Hx
           | by intros ? ]).
Qed.
End start_facts.
